(** * typed-mongo: declarative index reconciliation

    A shallow embedding of [Model.syncIndexes] (src/model.ts) and of
    [TypedMongo.model] / [TypedMongo.syncIndexes] (src/index.ts).

    The MongoDB driver is an external collaborator.  Its three index
    operations are an interface ([Store]) over an abstract world; every
    call the engine makes is also appended to a call log, so that "no
    store operation", "no drop" and "drops in order" are statements about
    that log.  A promise is a state-and-error computation ([Async]):
    [await] is sequencing, a rejected promise is the [inl] branch. *)

From Stdlib Require Import ZArith.
From stdpp Require Import gmap strings list.

Open Scope Z_scope.
Open Scope string_scope.
Open Scope list_scope.

(** ** Driver types (package [mongodb]) *)

Module Mongo.

(** Direction or kind of one indexed field: [1], [-1], or a kind such as
    ['text'], ['2dsphere'], ['hashed']. *)
Inductive IndexDirection : Type :=
| Asc
| Desc
| Kind (k : string).

(** [IndexDescription]: one desired index. *)
Record IndexDescription : Type := {
  key : list (string * IndexDirection);
  name : option string;
  unique : bool;
}.

(** A document returned by [listIndexes().toArray()]. *)
Record IndexInfo : Type := {
  info_name : string;
  info_key : list (string * IndexDirection);
  info_unique : bool;
}.

(** [IndexInformationOptions], passed through to [listIndexes]. *)
Record IndexInformationOptions : Type := {
  full : option bool;
  batchSize : option Z;
}.

(** What a rejected promise carries.  [MongoServerError] is the only class
    the engine tests with [instanceof]; its [code] and [codeName] may be
    undefined. *)
Inductive JsError : Type :=
| MongoServerError (code : option Z) (codeName : option string) (message : string)
| OtherError (message : string).

(** [Collection<TSchema>]: the handle made by [db.collection(name)]. *)
Record Collection : Type := { collectionName : string }.

#[global] Instance IndexDirection_eq_dec : EqDecision IndexDirection.
Proof. solve_decision. Defined.
#[global] Instance IndexDescription_eq_dec : EqDecision IndexDescription.
Proof. solve_decision. Defined.
#[global] Instance IndexInfo_eq_dec : EqDecision IndexInfo.
Proof. solve_decision. Defined.
#[global] Instance JsError_eq_dec : EqDecision JsError.
Proof. solve_decision. Defined.

End Mongo.
Import Mongo.

(** ** The store interface and the call log *)

(** The three driver calls the engine makes on a collection.  Each may
    change the world and may reject. *)
Class Store (W : Type) : Type := {
  listIndexes :
    string -> option IndexInformationOptions -> W -> (JsError + list IndexInfo) * W;
  createIndexes :
    string -> list IndexDescription -> W -> (JsError + list string) * W;
  dropIndex :
    string -> string -> W -> (JsError + unit) * W;
}.

Inductive StoreCall : Type :=
| CallListIndexes (coll : string) (options : option IndexInformationOptions)
| CallCreateIndexes (coll : string) (descriptors : list IndexDescription)
| CallDropIndex (coll : string) (indexName : string).

Record St (W : Type) : Type := mkSt { world : W; log : list StoreCall }.
Arguments mkSt {W} _ _.
Arguments world {W} _.
Arguments log {W} _.

(** ** Promises *)

Definition Async (W A : Type) : Type := St W -> (JsError + A) * St W.

Definition resolve {W A} (a : A) : Async W A := fun st => (inr a, st).

Definition throw {W A} (e : JsError) : Async W A := fun st => (inl e, st).

Definition await {W A B} (p : Async W A) (k : A -> Async W B) : Async W B :=
  fun st =>
    match p st with
    | (inr a, st') => k a st'
    | (inl e, st') => (inl e, st')
    end.

Definition tryCatch {W A} (body : Async W A) (handler : JsError -> Async W A)
  : Async W A :=
  fun st =>
    match body st with
    | (inr a, st') => (inr a, st')
    | (inl e, st') => handler e st'
    end.

Notation "'let*' x := p 'in' k" := (await p (fun x => k))
  (at level 10, x name, p at level 100, k at level 200).

Section Calls.
Context {W : Type} `{Store W}.

Definition callListIndexes (c : Collection) (options : option IndexInformationOptions)
  : Async W (list IndexInfo) :=
  fun st =>
    let '(r, w) := listIndexes (collectionName c) options (world st) in
    (r, mkSt w (log st ++ [CallListIndexes (collectionName c) options])).

Definition callCreateIndexes (c : Collection) (descriptors : list IndexDescription)
  : Async W (list string) :=
  fun st =>
    let '(r, w) := createIndexes (collectionName c) descriptors (world st) in
    (r, mkSt w (log st ++ [CallCreateIndexes (collectionName c) descriptors])).

Definition callDropIndex (c : Collection) (indexName : string) : Async W unit :=
  fun st =>
    let '(r, w) := dropIndex (collectionName c) indexName (world st) in
    (r, mkSt w (log st ++ [CallDropIndex (collectionName c) indexName])).
End Calls.

(** ** src/model.ts *)

Module ModelTs.

Record ModelOptions : Type := { opt_indexes : option (list IndexDescription) }.

Record SyncIndexesResult : Type := {
  created : list string;
  dropped : list string;
}.

Record Model : Type := {
  collection : Collection;
  indexes : option (list IndexDescription);
}.

(** [constructor(db, collectionName, options = {})] *)
Definition newModel (collectionName : string) (options : ModelOptions) : Model :=
  {| collection := {| Mongo.collectionName := collectionName |};
     indexes := opt_indexes options |}.

Definition getCollection (m : Model) : Collection := collection m.

(** [!this.indexes || this.indexes.length === 0]: [undefined] is falsy, an
    array (also the empty one) is truthy. *)
Definition noIndexes (m : Model) : bool :=
  match indexes m with
  | None => true
  | Some l => Nat.eqb (length l) 0
  end.

(** [error.code === 26 || error.codeName === 'NamespaceNotFound'] under
    [error instanceof MongoServerError]. *)
Definition isNamespaceNotFound (error : JsError) : bool :=
  match error with
  | MongoServerError code codeName _ =>
      bool_decide (code = Some 26) || bool_decide (codeName = Some "NamespaceNotFound")
  | OtherError _ => false
  end.

(** [oldIndexNames.filter((item) => !newIndexNamesSet.has(item))] *)
Definition toDropIndexNames (oldIndexNames newIndexNames : list string) : list string :=
  let newIndexNamesSet : gset string := list_to_set newIndexNames in
  filter (fun item => item ∉ newIndexNamesSet) oldIndexNames.

(** [newIndexNames.filter((item) => !oldIndexNamesSet.has(item))] *)
Definition createdIndexNames (oldIndexNames newIndexNames : list string) : list string :=
  let oldIndexNamesSet : gset string := list_to_set oldIndexNames in
  filter (fun item => item ∉ oldIndexNamesSet) newIndexNames.

Section ModelSync.
Context {W : Type} `{Store W}.

(** Step 1, the [try]/[catch] around the listing.  The handler assigns
    [oldIndexNames = []] when the collection does not exist, and then
    reaches [throw error] in every case. *)
Definition readOldIndexNames (c : Collection) (options : option IndexInformationOptions)
  : Async W (list string) :=
  let oldIndexNames0 : list string := [] in
  tryCatch
    (let* infos := callListIndexes c options in
     resolve (map info_name infos))
    (fun error =>
       let oldIndexNames :=
         if isNamespaceNotFound error then [] else oldIndexNames0 in
       throw error).

(** Step 4, the [for ... of toDropIndexNames] loop; [droppedIndexNames] is
    the accumulator. *)
Fixpoint dropLoop (c : Collection) (names : list string) (droppedIndexNames : list string)
  : Async W (list string) :=
  match names with
  | [] => resolve droppedIndexNames
  | indexName :: rest =>
      if String.eqb indexName "_id_" then dropLoop c rest droppedIndexNames
      else
        let* _ := callDropIndex c indexName in
        dropLoop c rest (droppedIndexNames ++ [indexName])
  end.

Definition syncIndexes (m : Model) (options : option IndexInformationOptions)
  : Async W SyncIndexesResult :=
  if noIndexes m then resolve {| created := []; dropped := [] |}
  else
    let* oldIndexNames := readOldIndexNames (collection m) options in
    let* newIndexNames := callCreateIndexes (collection m) (default [] (indexes m)) in
    let toDrop := toDropIndexNames oldIndexNames newIndexNames in
    let createdNames := createdIndexNames oldIndexNames newIndexNames in
    let* droppedIndexNames := dropLoop (collection m) toDrop [] in
    resolve {| created := createdNames; dropped := droppedIndexNames |}.
End ModelSync.

End ModelTs.
Import ModelTs.

(** ** src/index.ts *)

Module IndexTs.

(** One element of [SyncIndexesResults]. *)
Record SyncIndexesEntry : Type := {
  collectionName : string;
  created : list string;
  dropped : list string;
}.

Definition SyncIndexesResults : Type := list SyncIndexesEntry.

(** A JavaScript [Map<string, V>]: entries in insertion order, at most one
    per key.  [set] on a key already present replaces the value where the
    entry stands; a new key goes to the end. *)
Fixpoint mapSet {V : Type} (k : string) (v : V) (entries : list (string * V))
  : list (string * V) :=
  match entries with
  | [] => [(k, v)]
  | (k', v') :: rest =>
      if String.eqb k' k then (k, v) :: rest else (k', v') :: mapSet k v rest
  end.

(** [Map.prototype.values()] *)
Definition mapValues {V : Type} (entries : list (string * V)) : list V :=
  map snd entries.

(** [Map.prototype.get] *)
Fixpoint mapGet {V : Type} (k : string) (entries : list (string * V)) : option V :=
  match entries with
  | [] => None
  | (k', v') :: rest => if String.eqb k' k then Some v' else mapGet k rest
  end.

(** [class TypedMongo]: [private models = new Map()].  The [db] handle is
    the world the promises run in. *)
Record TypedMongo : Type := { models : list (string * Model) }.

(** [constructor(db)] *)
Definition newTypedMongo : TypedMongo := {| models := [] |}.

(** [model(collectionName, options = {})]: the new model and the
    receiver after [this.models.set]. *)
Definition model (tm : TypedMongo) (collectionName : string) (options : ModelOptions)
  : Model * TypedMongo :=
  let model := newModel collectionName options in
  (model, {| models := mapSet collectionName model (models tm) |}).

Definition getModels (tm : TypedMongo) : list (string * Model) := models tm.

Section Sync.
Context {W : Type} `{Store W}.

(** The [for (const model of this.models.values())] loop; [results] is
    the accumulator. *)
Fixpoint syncLoop (ms : list Model) (options : option IndexInformationOptions)
  (results : SyncIndexesResults) : Async W SyncIndexesResults :=
  match ms with
  | [] => resolve results
  | model :: rest =>
      let* result := syncIndexes model options in
      syncLoop rest options
        (results ++ [ {| collectionName := Mongo.collectionName (getCollection model);
                         created := ModelTs.created result;
                         dropped := ModelTs.dropped result |} ])
  end.

Definition syncIndexes (tm : TypedMongo) (options : option IndexInformationOptions)
  : Async W SyncIndexesResults :=
  syncLoop (mapValues (models tm)) options [].
End Sync.

End IndexTs.

(** ** Vocabulary of the statements *)

Section Vocabulary.
Context {W : Type} `{Store W}.

(** The store accepts the drops of [names] on collection [coll] one after
    the other, taking world [w] to world [w']. *)
Inductive dropsSucceed (coll : string) : list string -> W -> W -> Prop :=
| dropsSucceed_nil w : dropsSucceed coll [] w w
| dropsSucceed_cons n ns w w1 w2 :
    dropIndex coll n w = (inr tt, w1) ->
    dropsSucceed coll ns w1 w2 ->
    dropsSucceed coll (n :: ns) w w2.

(** The names a listing of [coll] shows in world [w], when it succeeds. *)
Definition listedNames (coll : string) (options : option IndexInformationOptions)
  (w : W) : JsError + list string :=
  match fst (listIndexes coll options w) with
  | inl e => inl e
  | inr infos => inr (map info_name infos)
  end.

(** The store contract of the idempotence property: listing is a pure
    read; a listing after a successful create or drop reflects it; and a
    create that has succeeded succeeds again, with the same names, after
    drops of other names. *)
Class StoreContract : Prop := {
  list_readonly : forall coll options w,
    snd (listIndexes coll options w) = w;
  create_reflected : forall coll options ds w M w' E,
    createIndexes coll ds w = (inr M, w') ->
    listedNames coll options w = inr E ->
    exists E', listedNames coll options w' = inr E' /\
               forall x, x ∈ E' <-> x ∈ E \/ x ∈ M;
  drop_reflected : forall coll options n w w' E,
    dropIndex coll n w = (inr tt, w') ->
    listedNames coll options w = inr E ->
    exists E', listedNames coll options w' = inr E' /\
               forall x, x ∈ E' <-> x ∈ E /\ x <> n;
  create_idempotent : forall coll ds w M w' ns w'',
    createIndexes coll ds w = (inr M, w') ->
    dropsSucceed coll ns w' w'' ->
    (forall n, n ∈ ns -> n ∉ M) ->
    exists M' w3, createIndexes coll ds w'' = (inr M', w3) /\
                  forall x, x ∈ M' <-> x ∈ M;
}.

(** A rejected create leaves the listing of the collection as it was. *)
Definition rejectedCreateKeepsIndexes : Prop :=
  forall coll options ds w e w',
    createIndexes coll ds w = (inl e, w') ->
    listedNames coll options w' = listedNames coll options w.

(** A listing does not change the world. *)
Definition listingReadsOnly : Prop :=
  forall coll options w, snd (listIndexes coll options w) = w.

(** The models [ms] are reconciled one after the other from state [st],
    each one successfully, giving the entries [rs] and the state [st']. *)
Inductive reconciledInOrder (options : option IndexInformationOptions)
  : list Model -> St W -> IndexTs.SyncIndexesResults -> St W -> Prop :=
| reconciled_nil st : reconciledInOrder options [] st [] st
| reconciled_cons m ms st r st1 rs st2 :
    syncIndexes m options st = (inr r, st1) ->
    reconciledInOrder options ms st1 rs st2 ->
    reconciledInOrder options (m :: ms) st
      ({| IndexTs.collectionName := collectionName (collection m);
          IndexTs.created := created r;
          IndexTs.dropped := dropped r |} :: rs) st2.
End Vocabulary.
Arguments StoreContract W {_}.
Arguments rejectedCreateKeepsIndexes W {_}.
Arguments listingReadsOnly W {_}.

(** The collection names of the successive registrations, each kept at its
    first occurrence. *)
Fixpoint firstOccurrences (names : list string) : list string :=
  match names with
  | [] => []
  | n :: rest => n :: filter (fun x => x <> n) (firstOccurrences rest)
  end.

(** The options of the last registration of [coll], if any. *)
Fixpoint lastRegistration (coll : string) (regs : list (string * ModelOptions))
  : option ModelOptions :=
  match regs with
  | [] => None
  | (c, o) :: rest =>
      match lastRegistration coll rest with
      | Some o' => Some o'
      | None => if String.eqb c coll then Some o else None
      end
  end.

(** Every model stands in the registry under the name of its collection. *)
Definition keyedByCollection (entries : list (string * Model)) : Prop :=
  Forall (fun e => collectionName (collection (snd e)) = fst e) entries.

(** [typedMongo.model(c1, o1); ...; typedMongo.model(cn, on)] on a receiver. *)
Definition registerAll (tm : IndexTs.TypedMongo) (regs : list (string * ModelOptions))
  : IndexTs.TypedMongo :=
  fold_left (fun tm reg => snd (IndexTs.model tm (fst reg) (snd reg))) regs tm.

(** ** An in-memory store

    A small store in the shape of a MongoDB database, to run the engine on
    concrete worlds: a collection comes into being, with its ["_id_"]
    index, at the first create; a listing of a collection that does not
    exist is rejected with code 26. *)

Module MemStore.

Abbreviation World := (gmap string (list IndexInfo)).

Definition dirString (d : IndexDirection) : string :=
  match d with
  | Asc => "1"
  | Desc => "-1"
  | Kind k => k
  end.

(** The name the driver derives when a descriptor has none: the fields
    and directions joined by underscores. *)
Definition derivedName (key : list (string * IndexDirection)) : string :=
  String.concat "_" (map (fun fd => fst fd +:+ "_" +:+ dirString (snd fd)) key).

Definition indexName (d : IndexDescription) : string :=
  match name d with
  | Some n => n
  | None => derivedName (key d)
  end.

Definition infoOf (d : IndexDescription) : IndexInfo :=
  {| info_name := indexName d; info_key := key d; info_unique := unique d |}.

Definition idIndex : IndexInfo :=
  {| info_name := "_id_"; info_key := [("_id", Asc)]; info_unique := false |}.

Definition namespaceNotFound : JsError :=
  MongoServerError (Some 26) (Some "NamespaceNotFound") "ns does not exist".

Definition indexNotFound : JsError :=
  MongoServerError (Some 27) (Some "IndexNotFound") "index not found with name".

Definition indexConflict : JsError :=
  MongoServerError (Some 86) (Some "IndexKeySpecsConflict")
    "An existing index has the same name as the requested index".

Definition cannotDropId : JsError :=
  MongoServerError (Some 72) (Some "InvalidOptions") "cannot drop _id index".

(** Adds the descriptors one by one: an identical index is accepted
    silently, a different index of the same name is a conflict. *)
Fixpoint addAll (ds : list IndexDescription) (l : list IndexInfo)
  : JsError + list IndexInfo :=
  match ds with
  | [] => inr l
  | d :: rest =>
      if decide (infoOf d ∈ l) then addAll rest l
      else if decide (indexName d ∈ map info_name l) then inl indexConflict
      else addAll rest (l ++ [infoOf d])
  end.

Definition memList (coll : string) (options : option IndexInformationOptions)
  (w : World) : (JsError + list IndexInfo) * World :=
  match w !! coll with
  | None => (inl namespaceNotFound, w)
  | Some l => (inr l, w)
  end.

Definition memCreate (coll : string) (ds : list IndexDescription) (w : World)
  : (JsError + list string) * World :=
  match addAll ds (default [idIndex] (w !! coll)) with
  | inl e => (inl e, w)
  | inr l => (inr (map indexName ds), <[coll := l]> w)
  end.

Definition memDrop (coll : string) (n : string) (w : World)
  : (JsError + unit) * World :=
  match w !! coll with
  | None => (inl namespaceNotFound, w)
  | Some l =>
      if decide (n = "_id_") then (inl cannotDropId, w)
      else if decide (n ∈ map info_name l)
      then (inr tt, <[coll := filter (fun i => info_name i <> n) l]> w)
      else (inl indexNotFound, w)
  end.

#[global] Instance memStore : Store World :=
  {| listIndexes := memList; createIndexes := memCreate; dropIndex := memDrop |}.

(** [{ key: { field: 1 } }] and the index it resolves to. *)
Definition asc (field : string) : IndexDescription :=
  {| key := [(field, Asc)]; name := None; unique := false |}.

Definition info (field : string) : IndexInfo := infoOf (asc field).

Definition start (w : World) : St World := mkSt w [].

(** Sample data: a collection with two secondary indexes, and a model
    that desires a third one only. *)
Definition usersWorld : World :=
  {[ "users" := [idIndex; info "name"; info "age"] ]}.

Definition emailModel : Model :=
  newModel "users" {| opt_indexes := Some [asc "email"] |}.

(** A model whose one desired index takes the name of an existing index
    of another shape. *)
Definition clashingModel : Model :=
  newModel "users"
    {| opt_indexes :=
         Some [ {| key := [("name", Desc)]; name := Some "name_1"; unique := false |} ] |}.

Definition users (l : list IndexInfo) : World := {[ "users" := l ]}.

End MemStore.

(** ** A store that refuses some drops

    The in-memory store behind a permission check: the drop of a locked
    index name is rejected with code 13, every other call goes through. *)

Module LockedStore.

Record World : Type := mkWorld { locked : list string; inner : MemStore.World }.

Definition unauthorized : JsError :=
  MongoServerError (Some 13) (Some "Unauthorized") "not authorized to drop index".

Definition lockedList (coll : string) (options : option IndexInformationOptions)
  (w : World) : (JsError + list IndexInfo) * World :=
  let '(r, i) := MemStore.memList coll options (inner w) in (r, mkWorld (locked w) i).

Definition lockedCreate (coll : string) (ds : list IndexDescription) (w : World)
  : (JsError + list string) * World :=
  let '(r, i) := MemStore.memCreate coll ds (inner w) in (r, mkWorld (locked w) i).

Definition lockedDrop (coll : string) (n : string) (w : World)
  : (JsError + unit) * World :=
  if decide (n ∈ locked w) then (inl unauthorized, w)
  else let '(r, i) := MemStore.memDrop coll n (inner w) in (r, mkWorld (locked w) i).

#[global] Instance lockedStore : Store World :=
  {| listIndexes := lockedList; createIndexes := lockedCreate; dropIndex := lockedDrop |}.

End LockedStore.

(** ** A store that cannot be reached

    Every call is rejected with a connection error that is not a
    [MongoServerError]. *)

Module DownStore.

Definition connectionClosed : JsError := OtherError "connection closed".

#[global] Instance downStore : Store unit :=
  {| listIndexes := fun _ _ w => (inl connectionClosed, w);
     createIndexes := fun _ _ w => (inl connectionClosed, w);
     dropIndex := fun _ _ w => (inl connectionClosed, w) |}.

End DownStore.

(** ** Vocabulary of the run as a whole *)

(** The collection a logged call was made on. *)
Definition callColl (call : StoreCall) : string :=
  match call with
  | CallListIndexes coll _ => coll
  | CallCreateIndexes coll _ => coll
  | CallDropIndex coll _ => coll
  end.

(** The aggregate entry of a model that took no part in the
    reconciliation. *)
Definition skippedEntry (m : Model) : IndexTs.SyncIndexesEntry :=
  {| IndexTs.collectionName := collectionName (collection m);
     IndexTs.created := [];
     IndexTs.dropped := [] |}.

Section Outcomes.
Context {W : Type} `{Store W}.

(** The five ways a run of [Model.syncIndexes] from state [st] can end:
    skipped for want of desired indexes, rejected by the listing, rejected
    by the create, rejected by a drop after the drops of [pre], or
    resolved after every drop. *)
Inductive syncOutcome (m : Model) (options : option IndexInformationOptions) (st : St W)
  : (JsError + SyncIndexesResult) * St W -> Prop :=
| outcome_skipped :
    noIndexes m = true ->
    syncOutcome m options st (inr {| created := []; dropped := [] |}, st)
| outcome_listing_rejected e w :
    noIndexes m = false ->
    listIndexes (collectionName (collection m)) options (world st) = (inl e, w) ->
    syncOutcome m options st
      (inl e, mkSt w (log st ++ [CallListIndexes (collectionName (collection m)) options]))
| outcome_create_rejected infos w1 e w2 :
    noIndexes m = false ->
    listIndexes (collectionName (collection m)) options (world st) = (inr infos, w1) ->
    createIndexes (collectionName (collection m)) (default [] (indexes m)) w1 = (inl e, w2) ->
    syncOutcome m options st
      (inl e,
       mkSt w2 (log st
                ++ [CallListIndexes (collectionName (collection m)) options;
                    CallCreateIndexes (collectionName (collection m))
                      (default [] (indexes m))]))
| outcome_drop_rejected infos w1 M w2 pre n post w3 e w4 :
    noIndexes m = false ->
    listIndexes (collectionName (collection m)) options (world st) = (inr infos, w1) ->
    createIndexes (collectionName (collection m)) (default [] (indexes m)) w1 = (inr M, w2) ->
    filter (fun x => x <> "_id_") (list_difference (map info_name infos) M)
      = pre ++ n :: post ->
    dropsSucceed (collectionName (collection m)) pre w2 w3 ->
    dropIndex (collectionName (collection m)) n w3 = (inl e, w4) ->
    syncOutcome m options st
      (inl e,
       mkSt w4 (log st
                ++ [CallListIndexes (collectionName (collection m)) options;
                    CallCreateIndexes (collectionName (collection m))
                      (default [] (indexes m))]
                ++ map (CallDropIndex (collectionName (collection m))) pre
                ++ [CallDropIndex (collectionName (collection m)) n]))
| outcome_resolved infos w1 M w2 w3 :
    noIndexes m = false ->
    listIndexes (collectionName (collection m)) options (world st) = (inr infos, w1) ->
    createIndexes (collectionName (collection m)) (default [] (indexes m)) w1 = (inr M, w2) ->
    dropsSucceed (collectionName (collection m))
      (filter (fun x => x <> "_id_") (list_difference (map info_name infos) M)) w2 w3 ->
    syncOutcome m options st
      (inr {| created := list_difference M (map info_name infos);
              dropped := filter (fun x => x <> "_id_")
                           (list_difference (map info_name infos) M) |},
       mkSt w3 (log st
                ++ [CallListIndexes (collectionName (collection m)) options;
                    CallCreateIndexes (collectionName (collection m))
                      (default [] (indexes m))]
                ++ map (CallDropIndex (collectionName (collection m)))
                     (filter (fun x => x <> "_id_")
                        (list_difference (map info_name infos) M)))).
End Outcomes.

(** ** The registry a sequence of registrations stands for *)

(** The options [coll] was last registered with. *)
Definition lastOptions (coll : string) (regs : list (string * ModelOptions))
  : ModelOptions :=
  default {| opt_indexes := None |} (lastRegistration coll regs).

(** The models of the registrations [regs], in registration order: one per
    collection name, placed where the name was first registered and made
    from the options it was last registered with. *)
Definition registeredModels (regs : list (string * ModelOptions)) : list Model :=
  map (fun coll => newModel coll (lastOptions coll regs))
    (firstOccurrences (map fst regs)).

(** Sample data: three collections, and a registration of one model for
    each. *)
Definition shopWorld : MemStore.World :=
  <["posts" := [MemStore.idIndex]]>
    (<["logs" := [MemStore.idIndex]]> MemStore.usersWorld).

Definition shopRegs : list (string * ModelOptions) :=
  [ ("posts", {| opt_indexes := Some [MemStore.asc "title"] |});
    ("users", {| opt_indexes := Some [MemStore.asc "email"] |});
    ("logs", {| opt_indexes := Some [MemStore.asc "at"] |}) ].

(** Runs a list of drops on a concrete world. *)
Ltac run_drops :=
  repeat (eapply dropsSucceed_cons; [vm_compute; reflexivity|]);
  apply dropsSucceed_nil.

(** * Properties *)

(** ** The promise combinators and the diff *)

Lemma has_list_to_set (l k : list string) :
  filter (fun item => item ∉ (list_to_set k : gset string)) l = list_difference l k.
Proof.
  induction l as [|x l IH]; [reflexivity|].
  rewrite filter_cons. cbn [list_difference].
  destruct (decide_rel elem_of x k) as [Hin|Hout].
  - rewrite decide_False by (intros Hn; apply Hn, elem_of_list_to_set, Hin).
    exact IH.
  - rewrite decide_True by (rewrite elem_of_list_to_set; exact Hout).
    now rewrite IH.
Qed.

Lemma toDropIndexNames_difference (E M : list string) :
  toDropIndexNames E M = list_difference E M.
Proof. apply has_list_to_set. Qed.

Lemma createdIndexNames_difference (E M : list string) :
  createdIndexNames E M = list_difference M E.
Proof. apply has_list_to_set. Qed.

Lemma eqb_id_filter (n : string) (rest : list string) :
  filter (fun x => x <> "_id_") (n :: rest) =
  if String.eqb n "_id_" then filter (fun x => x <> "_id_") rest
  else n :: filter (fun x => x <> "_id_") rest.
Proof.
  rewrite filter_cons. destruct (String.eqb_spec n "_id_") as [->|Hne].
  - now rewrite decide_False by (intros Hn; now apply Hn).
  - now rewrite decide_True by exact Hne.
Qed.

Lemma filter_ne_difference (a : string) (l : list string) :
  filter (fun x => x <> a) l = list_difference l [a].
Proof.
  induction l as [|x l IH]; [reflexivity|].
  rewrite filter_cons. cbn [list_difference].
  destruct (decide_rel elem_of x [a]) as [Hin|Hout].
  - apply list_elem_of_singleton in Hin as ->.
    now rewrite decide_False by (intros Hn; now apply Hn).
  - rewrite decide_True by (intros ->; apply Hout, list_elem_of_singleton; reflexivity).
    now rewrite IH.
Qed.

Section ModelSyncFacts.
Context {W : Type} `{Store W}.
Implicit Types (c : Collection) (st : St W) (w : W).

Lemma readOldIndexNames_listed c options st infos w :
  listIndexes (collectionName c) options (world st) = (inr infos, w) ->
  readOldIndexNames c options st =
  (inr (map info_name infos),
   mkSt w (log st ++ [CallListIndexes (collectionName c) options])).
Proof.
  intros Hl. unfold readOldIndexNames, tryCatch, await, callListIndexes.
  now rewrite Hl.
Qed.

Lemma readOldIndexNames_rejected c options st e w :
  listIndexes (collectionName c) options (world st) = (inl e, w) ->
  readOldIndexNames c options st =
  (inl e, mkSt w (log st ++ [CallListIndexes (collectionName c) options])).
Proof.
  intros Hl. unfold readOldIndexNames, tryCatch, await, callListIndexes.
  now rewrite Hl.
Qed.

(** The loop when the store accepts every drop. *)
Lemma dropLoop_all c names acc w w' lg :
  dropsSucceed (collectionName c) (filter (fun x => x <> "_id_") names) w w' ->
  dropLoop c names acc (mkSt w lg) =
  (inr (acc ++ filter (fun x => x <> "_id_") names),
   mkSt w' (lg ++ map (CallDropIndex (collectionName c))
                      (filter (fun x => x <> "_id_") names))).
Proof.
  revert acc w lg. induction names as [|n rest IH]; intros acc w lg Hd.
  - inversion Hd; subst. cbn. now rewrite !app_nil_r.
  - rewrite eqb_id_filter in *. cbn [dropLoop].
    destruct (String.eqb n "_id_"); [now apply IH|].
    inversion Hd as [|? ? ? w1 ? Hdrop Hrest]; subst.
    unfold await, callDropIndex. cbn [world log]. rewrite Hdrop.
    rewrite (IH _ _ _ Hrest). cbn [map]. now rewrite <- !app_assoc.
Qed.

(** The loop when the store rejects the drop of [n], after accepting the
    drops of [pre]. *)
Lemma dropLoop_stops c names acc w w' w'' lg pre n post e :
  filter (fun x => x <> "_id_") names = pre ++ n :: post ->
  dropsSucceed (collectionName c) pre w w' ->
  dropIndex (collectionName c) n w' = (inl e, w'') ->
  dropLoop c names acc (mkSt w lg) =
  (inl e,
   mkSt w'' (lg ++ map (CallDropIndex (collectionName c)) pre
                ++ [CallDropIndex (collectionName c) n])).
Proof.
  revert acc w lg pre. induction names as [|x rest IH]; intros acc w lg pre Hf Hd He.
  - cbn in Hf. now destruct pre.
  - rewrite eqb_id_filter in Hf. cbn [dropLoop].
    destruct (String.eqb x "_id_"); [now apply (IH _ _ _ pre)|].
    destruct pre as [|p pre]; cbn in Hf; injection Hf as -> Hf.
    + inversion Hd; subst. unfold await, callDropIndex. cbn [world log].
      now rewrite He.
    + inversion Hd as [|? ? ? w1 ? Hdrop Hrest]; subst.
      unfold await, callDropIndex. cbn [world log]. rewrite Hdrop.
      rewrite (IH _ _ _ pre Hf Hrest He). cbn [map]. now rewrite <- !app_assoc.
Qed.

(** What every run of the loop leaves behind, whatever the store does:
    drop calls for a prefix of the candidates other than ["_id_"], and on
    success exactly those names. *)
Lemma dropLoop_trace c names acc st :
  exists ds,
    ds `prefix_of` filter (fun x => x <> "_id_") names /\
    log (snd (dropLoop c names acc st)) =
      log st ++ map (CallDropIndex (collectionName c)) ds /\
    forall d, fst (dropLoop c names acc st) = inr d -> d = acc ++ ds.
Proof.
  revert acc st. induction names as [|n rest IH]; intros acc st.
  - exists []. cbn. rewrite !app_nil_r. repeat split; [|congruence].
    apply prefix_nil.
  - rewrite eqb_id_filter. cbn [dropLoop].
    destruct (String.eqb n "_id_"); [apply IH|].
    unfold await, callDropIndex.
    destruct (dropIndex (collectionName c) n (world st)) as [[e|[]] w1].
    + exists [n]. cbn. repeat split; [|congruence].
      apply prefix_cons, prefix_nil.
    + destruct (IH (acc ++ [n]) (mkSt w1 (log st ++ [CallDropIndex (collectionName c) n])))
        as (ds & Hp & Hl & Hr).
      exists (n :: ds). split; [now apply prefix_cons|]. split.
      * rewrite Hl. cbn. now rewrite <- app_assoc.
      * intros d Hd. rewrite (Hr d Hd). now rewrite <- app_assoc.
Qed.

(** The run up to the drop loop, once listing and creation are known. *)
Lemma syncIndexes_after_create m options st infos w1 M w2 :
  noIndexes m = false ->
  listIndexes (collectionName (collection m)) options (world st) = (inr infos, w1) ->
  createIndexes (collectionName (collection m)) (default [] (indexes m)) w1 = (inr M, w2) ->
  syncIndexes m options st =
  (let* droppedIndexNames :=
     dropLoop (collection m) (list_difference (map info_name infos) M) [] in
   resolve {| created := list_difference M (map info_name infos);
              dropped := droppedIndexNames |})
    (mkSt w2 (log st
              ++ [CallListIndexes (collectionName (collection m)) options;
                  CallCreateIndexes (collectionName (collection m))
                    (default [] (indexes m))])).
Proof.
  intros Hn Hl Hc. unfold syncIndexes. rewrite Hn.
  unfold await at 1. rewrite (readOldIndexNames_listed _ _ _ _ _ Hl).
  unfold await at 1. unfold callCreateIndexes. cbn [world log]. rewrite Hc.
  rewrite toDropIndexNames_difference, createdIndexNames_difference.
  now rewrite <- app_assoc.
Qed.
End ModelSyncFacts.

Import MemStore.

(** ** Listing of a collection that does not exist *)

Section ListingRejected.
Context {W : Type} `{Store W}.

(** Whatever error the listing is rejected with, the catch block ends in
    [throw error]: the run is rejected with it and stops there. *)
Lemma syncIndexes_listing_rejected (m : Model) options (st : St W) e w :
  noIndexes m = false ->
  listIndexes (collectionName (collection m)) options (world st) = (inl e, w) ->
  syncIndexes m options st =
  (inl e, mkSt w (log st ++ [CallListIndexes (collectionName (collection m)) options])).
Proof.
  intros Hn Hl. unfold syncIndexes. rewrite Hn. unfold await at 1.
  now rewrite (readOldIndexNames_rejected _ _ _ _ _ Hl).
Qed.
End ListingRejected.

(** C1.  On a collection that does not exist yet the listing is rejected
    with code 26, NamespaceNotFound.  The run of [syncIndexes] with one
    desired index is then rejected with that very error, after the listing
    call alone: no index is created.  The specification, like the comment
    in the handler, has the run go on with an empty set of existing
    names. *)
Theorem C1_missing_collection_error_is_rethrown :
  syncIndexes (newModel "users" {| opt_indexes := Some [asc "name"] |}) None (start ∅)
  = (inl (MongoServerError (Some 26) (Some "NamespaceNotFound") "ns does not exist"),
     mkSt ∅ [CallListIndexes "users" None]).
Proof. vm_compute. reflexivity. Qed.

(** ** The diff *)

(** C2.  When the listing gives the names [E] and [createIndexes] gives
    [M], the run continues with the drop loop over [E ∖ M], in the order
    of [E], and the list it reports as created is [M ∖ E], in the order
    of [M]. *)
Theorem C2_diff_is_list_difference
  {W : Type} `{Store W} (m : Model) options (st : St W) infos w1 M w2 :
  noIndexes m = false ->
  listIndexes (collectionName (collection m)) options (world st) = (inr infos, w1) ->
  createIndexes (collectionName (collection m)) (default [] (indexes m)) w1 = (inr M, w2) ->
  let E := map info_name infos in
  toDropIndexNames E M = list_difference E M /\
  createdIndexNames E M = list_difference M E /\
  syncIndexes m options st =
    (let* droppedIndexNames := dropLoop (collection m) (list_difference E M) [] in
     resolve {| created := list_difference M E; dropped := droppedIndexNames |})
      (mkSt w2 (log st
                ++ [CallListIndexes (collectionName (collection m)) options;
                    CallCreateIndexes (collectionName (collection m))
                      (default [] (indexes m))])).
Proof.
  intros Hn Hl Hc E. split; [apply toDropIndexNames_difference|].
  split; [apply createdIndexNames_difference|].
  exact (syncIndexes_after_create m options st infos w1 M w2 Hn Hl Hc).
Qed.

Lemma C2_diff_witness :
  toDropIndexNames ["_id_"; "name_1"; "age_1"] ["email_1"] = ["_id_"; "name_1"; "age_1"] /\
  createdIndexNames ["_id_"; "name_1"; "age_1"] ["email_1"] = ["email_1"] /\
  fst (syncIndexes emailModel None (start usersWorld)) =
    inr {| created := ["email_1"]; dropped := ["name_1"; "age_1"] |}.
Proof.
  destruct (C2_diff_is_list_difference emailModel None (start usersWorld)
              [idIndex; info "name"; info "age"] usersWorld ["email_1"]
              (<["users" := [idIndex; info "name"; info "age"; info "email"]]> usersWorld))
    as (Hd & Hc & Hrun); [reflexivity | reflexivity | vm_compute; reflexivity |].
  split; [exact Hd|]. split; [exact Hc|]. rewrite Hrun. vm_compute. reflexivity.
Defined.

(** ** The run, case by case *)

Section Runs.
Context {W : Type} `{Store W}.

Lemma syncIndexes_early_exit (m : Model) options (st : St W) :
  noIndexes m = true ->
  syncIndexes m options st = (inr {| created := []; dropped := [] |}, st).
Proof. intros Hn. unfold syncIndexes. now rewrite Hn. Qed.

Lemma syncIndexes_create_rejected (m : Model) options (st : St W) infos w1 e w2 :
  noIndexes m = false ->
  listIndexes (collectionName (collection m)) options (world st) = (inr infos, w1) ->
  createIndexes (collectionName (collection m)) (default [] (indexes m)) w1 = (inl e, w2) ->
  syncIndexes m options st =
  (inl e,
   mkSt w2 (log st
            ++ [CallListIndexes (collectionName (collection m)) options;
                CallCreateIndexes (collectionName (collection m))
                  (default [] (indexes m))])).
Proof.
  intros Hn Hl Hc. unfold syncIndexes. rewrite Hn.
  unfold await at 1. rewrite (readOldIndexNames_listed _ _ _ _ _ Hl).
  unfold await at 1. unfold callCreateIndexes. cbn [world log]. rewrite Hc.
  now rewrite <- app_assoc.
Qed.

(** The calls of one run: nothing, or a listing, then a create, then
    drops of names other than ["_id_"]; a result lists as dropped the
    names of those drop calls. *)
Lemma syncIndexes_trace (m : Model) options (st : St W) :
  exists calls ds,
    log (snd (syncIndexes m options st)) = log st ++ calls ++
      map (CallDropIndex (collectionName (collection m))) ds /\
    (forall coll n, CallDropIndex coll n ∉ calls) /\
    ("_id_" ∉ ds) /\
    forall res, fst (syncIndexes m options st) = inr res -> dropped res = ds.
Proof.
  destruct (noIndexes m) eqn:Hn.
  { exists [], []. rewrite (syncIndexes_early_exit _ _ _ Hn). cbn.
    rewrite app_nil_r. repeat split; try (intros; apply not_elem_of_nil).
    now intros res [= <-]. }
  destruct (listIndexes (collectionName (collection m)) options (world st))
    as [[e|infos] w1] eqn:Hl.
  { exists [CallListIndexes (collectionName (collection m)) options], [].
    rewrite (syncIndexes_listing_rejected _ _ _ _ _ Hn Hl). cbn.
    repeat split; try (intros; apply not_elem_of_nil); [|discriminate].
    intros coll n Hin. apply list_elem_of_singleton in Hin. discriminate. }
  destruct (createIndexes (collectionName (collection m)) (default [] (indexes m)) w1)
    as [[e|M] w2] eqn:Hc.
  { exists [CallListIndexes (collectionName (collection m)) options;
            CallCreateIndexes (collectionName (collection m)) (default [] (indexes m))], [].
    rewrite (syncIndexes_create_rejected _ _ _ _ _ _ _ Hn Hl Hc). cbn [fst snd log map].
    repeat split; try (intros; apply not_elem_of_nil); [|discriminate].
    intros coll n Hin. rewrite !elem_of_cons in Hin.
    destruct Hin as [Hin|[Hin|Hin]]; try discriminate. now apply elem_of_nil in Hin. }
  rewrite (syncIndexes_after_create _ _ _ _ _ _ _ Hn Hl Hc). unfold await.
  match goal with |- context [dropLoop ?c ?names ?acc ?s] =>
    destruct (dropLoop_trace c names acc s) as (ds & Hp & Hlog & Hres);
    destruct (dropLoop c names acc s) as [[e|d] st3] end;
    unfold resolve; cbn [fst snd log] in *.
  all: exists [CallListIndexes (collectionName (collection m)) options;
            CallCreateIndexes (collectionName (collection m)) (default [] (indexes m))], ds.
  all: rewrite Hlog, <- !app_assoc; split; [reflexivity|]; split.
  1, 3: intros coll n Hin; rewrite !elem_of_cons in Hin;
    destruct Hin as [Hin|[Hin|Hin]]; try discriminate; now apply elem_of_nil in Hin.
  all: split; [|first [discriminate | intros res [= <-]; cbn; now rewrite (Hres d eq_refl)]].
  all: intros Hin; destruct Hp as [k Hk];
    assert (Hf : "_id_" ∈ filter (fun x : string => x <> "_id_")
                   (list_difference (map info_name infos) M))
      by (rewrite Hk; apply elem_of_app; now left);
    apply list_elem_of_filter in Hf; now destruct Hf.
Qed.
End Runs.

(** ** The primary-key index *)

(** C3.  Whatever the store answers, a run of [syncIndexes] issues no drop
    of ["_id_"], on any collection, and a result never lists ["_id_"] as
    dropped. *)
Theorem C3_id_index_never_dropped
  {W : Type} `{Store W} (m : Model) options (st : St W) :
  exists calls,
    log (snd (syncIndexes m options st)) = log st ++ calls /\
    (forall coll, CallDropIndex coll "_id_" ∉ calls) /\
    forall res, fst (syncIndexes m options st) = inr res -> "_id_" ∉ dropped res.
Proof.
  destruct (syncIndexes_trace m options st) as (calls & ds & Hlog & Hcalls & Hid & Hres).
  exists (calls ++ map (CallDropIndex (collectionName (collection m))) ds).
  split; [exact Hlog|]. split.
  - intros coll Hin. apply elem_of_app in Hin as [Hin|Hin]; [now apply (Hcalls coll "_id_")|].
    apply list_elem_of_In, in_map_iff in Hin as (x & [= _ ->] & Hx).
    now apply Hid, list_elem_of_In.
  - intros res Hr. now rewrite (Hres res Hr).
Qed.

(** ** No desired index *)

(** C4.  A model whose desired index list is absent or empty is left out of
    the reconciliation: the run resolves to no creation and no drop, and
    the state it ends in is the one it started in, world and call log
    alike. *)
Theorem C4_no_desired_index_is_a_no_op
  {W : Type} `{Store W} (m : Model) options (st : St W) :
  indexes m = None \/ indexes m = Some [] ->
  syncIndexes m options st = (inr {| created := []; dropped := [] |}, st).
Proof.
  intros Hi. apply syncIndexes_early_exit. unfold noIndexes.
  now destruct Hi as [-> | ->].
Qed.

Lemma C4_no_desired_index_witness :
  syncIndexes (newModel "users" {| opt_indexes := Some [] |}) None (start usersWorld)
  = (inr {| created := []; dropped := [] |}, start usersWorld).
Proof.
  apply (C4_no_desired_index_is_a_no_op
           (newModel "users" {| opt_indexes := Some [] |}) None (start usersWorld)).
  right. reflexivity.
Defined.

(** ** Rejections after the listing *)

(** C8.  When [createIndexes] is rejected with [e], the run is rejected
    with [e]; its calls are the listing and the create, no drop; and it
    leaves the world as the rejected create left it.  On a store whose
    listing only reads and whose rejected create keeps the indexes, the
    names listed before the run are the names listed after it. *)
Theorem C8_rejected_create_drops_nothing
  {W : Type} `{Store W} (m : Model) options (st : St W) infos w1 e w2 :
  noIndexes m = false ->
  listIndexes (collectionName (collection m)) options (world st) = (inr infos, w1) ->
  createIndexes (collectionName (collection m)) (default [] (indexes m)) w1 = (inl e, w2) ->
  let calls := [CallListIndexes (collectionName (collection m)) options;
                CallCreateIndexes (collectionName (collection m)) (default [] (indexes m))] in
  syncIndexes m options st = (inl e, mkSt w2 (log st ++ calls)) /\
  (forall coll n, CallDropIndex coll n ∉ calls) /\
  (listingReadsOnly W -> rejectedCreateKeepsIndexes W ->
   listedNames (collectionName (collection m)) options
     (world (snd (syncIndexes m options st))) = inr (map info_name infos)).
Proof.
  intros Hn Hl Hc calls.
  pose proof (syncIndexes_create_rejected m options st infos w1 e w2 Hn Hl Hc) as Hrun.
  split; [exact Hrun|]. split.
  - intros coll n Hin. subst calls. rewrite !elem_of_cons in Hin.
    destruct Hin as [Hin|[Hin|Hin]]; try discriminate. now apply elem_of_nil in Hin.
  - intros Hro Hkeep. rewrite Hrun. cbn [snd world].
    rewrite (Hkeep _ options _ _ _ _ Hc).
    pose proof (Hro (collectionName (collection m)) options (world st)) as Hw.
    rewrite Hl in Hw. cbn in Hw. subst w1.
    unfold listedNames. now rewrite Hl.
Qed.

(** C5.  The drops are issued one after the other in the order of the
    candidates.  When the store accepts the drops of [pre] and rejects the
    next one, of [n], with [e]: the run is rejected with [e], which is all
    the caller gets; the drop of [n] is the last call made; and the world
    is the one that rejected drop left, with the drops of [pre] done. *)
Theorem C5_rejected_drop_stops_without_rollback
  {W : Type} `{Store W} (m : Model) options (st : St W) infos w1 M w2 pre n post w3 e w4 :
  noIndexes m = false ->
  listIndexes (collectionName (collection m)) options (world st) = (inr infos, w1) ->
  createIndexes (collectionName (collection m)) (default [] (indexes m)) w1 = (inr M, w2) ->
  filter (fun x => x <> "_id_") (toDropIndexNames (map info_name infos) M)
    = pre ++ n :: post ->
  dropsSucceed (collectionName (collection m)) pre w2 w3 ->
  dropIndex (collectionName (collection m)) n w3 = (inl e, w4) ->
  syncIndexes m options st =
  (inl e,
   mkSt w4 (log st
            ++ [CallListIndexes (collectionName (collection m)) options;
                CallCreateIndexes (collectionName (collection m)) (default [] (indexes m))]
            ++ map (CallDropIndex (collectionName (collection m))) pre
            ++ [CallDropIndex (collectionName (collection m)) n])).
Proof.
  intros Hn Hl Hc Hf Hpre He.
  rewrite (syncIndexes_after_create m options st infos w1 M w2 Hn Hl Hc).
  rewrite toDropIndexNames_difference in Hf.
  unfold await. rewrite (dropLoop_stops _ _ _ _ _ _ _ _ _ _ _ Hf Hpre He).
  now rewrite <- !app_assoc.
Qed.

(** C9.  When the store accepts every drop, the run resolves, and the list
    it reports as dropped is [(E ∖ M) ∖ ["_id_"]] in the order of [E]. *)
Theorem C9_dropped_is_exactly_the_difference
  {W : Type} `{Store W} (m : Model) options (st : St W) infos w1 M w2 w3 :
  noIndexes m = false ->
  listIndexes (collectionName (collection m)) options (world st) = (inr infos, w1) ->
  createIndexes (collectionName (collection m)) (default [] (indexes m)) w1 = (inr M, w2) ->
  let E := map info_name infos in
  let D := list_difference (list_difference E M) ["_id_"] in
  dropsSucceed (collectionName (collection m)) D w2 w3 ->
  syncIndexes m options st =
  (inr {| created := list_difference M E; dropped := D |},
   mkSt w3 (log st
            ++ [CallListIndexes (collectionName (collection m)) options;
                CallCreateIndexes (collectionName (collection m)) (default [] (indexes m))]
            ++ map (CallDropIndex (collectionName (collection m))) D)).
Proof.
  intros Hn Hl Hc E D Hd. subst D.
  rewrite <- filter_ne_difference in *.
  rewrite (syncIndexes_after_create m options st infos w1 M w2 Hn Hl Hc).
  unfold await. rewrite (dropLoop_all _ _ _ _ _ _ Hd). unfold resolve.
  now rewrite <- !app_assoc.
Qed.

(** ** Runs on the sample stores *)

Lemma memStore_listing_reads_only : listingReadsOnly MemStore.World.
Proof.
  intros coll options w. cbn. unfold memList. now destruct (w !! coll).
Qed.

Lemma memStore_rejected_create_keeps : rejectedCreateKeepsIndexes MemStore.World.
Proof.
  intros coll options ds w e w' Hc. cbn in Hc. unfold memCreate in Hc.
  destruct (addAll ds (default [idIndex] (w !! coll))); now inversion Hc.
Qed.

Lemma C8_rejected_create_witness :
  syncIndexes clashingModel None (start usersWorld)
  = (inl indexConflict,
     mkSt usersWorld
       [CallListIndexes "users" None;
        CallCreateIndexes "users"
          [ {| key := [("name", Desc)]; name := Some "name_1"; unique := false |} ]]) /\
  listedNames "users" None (world (snd (syncIndexes clashingModel None (start usersWorld))))
  = inr ["_id_"; "name_1"; "age_1"].
Proof.
  destruct (C8_rejected_create_drops_nothing clashingModel None (start usersWorld)
              [idIndex; info "name"; info "age"] usersWorld indexConflict usersWorld)
    as (Hrun & _ & Hkeep); [reflexivity | reflexivity | vm_compute; reflexivity |].
  split; [exact Hrun|].
  exact (Hkeep memStore_listing_reads_only memStore_rejected_create_keeps).
Defined.

Lemma C5_rejected_drop_witness :
  syncIndexes emailModel None
    (mkSt (LockedStore.mkWorld ["age_1"] usersWorld) [])
  = (inl LockedStore.unauthorized,
     mkSt (LockedStore.mkWorld ["age_1"] (users [idIndex; info "age"; info "email"]))
       [CallListIndexes "users" None;
        CallCreateIndexes "users" [asc "email"];
        CallDropIndex "users" "name_1";
        CallDropIndex "users" "age_1"]).
Proof.
  apply (C5_rejected_drop_stops_without_rollback emailModel None
           (mkSt (LockedStore.mkWorld ["age_1"] usersWorld) [])
           [idIndex; info "name"; info "age"]
           (LockedStore.mkWorld ["age_1"] usersWorld)
           ["email_1"]
           (LockedStore.mkWorld ["age_1"]
              (users [idIndex; info "name"; info "age"; info "email"]))
           ["name_1"] "age_1" []
           (LockedStore.mkWorld ["age_1"] (users [idIndex; info "age"; info "email"]))
           LockedStore.unauthorized
           (LockedStore.mkWorld ["age_1"] (users [idIndex; info "age"; info "email"]))).
  - reflexivity.
  - vm_compute. reflexivity.
  - vm_compute. reflexivity.
  - vm_compute. reflexivity.
  - run_drops.
  - vm_compute. reflexivity.
Defined.

Lemma C9_dropped_witness :
  syncIndexes emailModel None (start usersWorld)
  = (inr {| created := ["email_1"]; dropped := ["name_1"; "age_1"] |},
     mkSt (users [idIndex; info "email"])
       [CallListIndexes "users" None;
        CallCreateIndexes "users" [asc "email"];
        CallDropIndex "users" "name_1";
        CallDropIndex "users" "age_1"]).
Proof.
  apply (C9_dropped_is_exactly_the_difference emailModel None (start usersWorld)
           [idIndex; info "name"; info "age"] usersWorld ["email_1"]
           (users [idIndex; info "name"; info "age"; info "email"])
           (users [idIndex; info "email"])).
  - reflexivity.
  - vm_compute. reflexivity.
  - vm_compute. reflexivity.
  - vm_compute. run_drops.
Defined.

(** ** The loop over the registered models *)

Section SyncLoop.
Context {W : Type} `{Store W}.
Implicit Types (ms : list Model) (st : St W) (acc rs : IndexTs.SyncIndexesResults).

Lemma syncLoop_resolves ms options acc st out st' :
  IndexTs.syncLoop ms options acc st = (inr out, st') <->
  exists rs, out = acc ++ rs /\ reconciledInOrder options ms st rs st'.
Proof.
  revert acc st. induction ms as [|m ms IH]; intros acc st; cbn [IndexTs.syncLoop].
  - unfold resolve. split.
    + intros [= <- <-]. exists []. rewrite app_nil_r. split; [reflexivity|constructor].
    + intros (rs & -> & Hr). inversion Hr; subst. now rewrite app_nil_r.
  - unfold await. destruct (syncIndexes m options st) as [[e|r] st1] eqn:Hm.
    + split; [discriminate|]. intros (rs & _ & Hr). inversion Hr; subst. congruence.
    + rewrite IH. split.
      * intros (rs & -> & Hr). eexists. rewrite <- app_assoc. split; [reflexivity|].
        cbn. econstructor; eassumption.
      * intros (rs & -> & Hr). inversion Hr as [|? ? ? r0 st0 rs0 ? Hm0 Hr0]; subst.
        rewrite Hm in Hm0. injection Hm0 as <- <-.
        exists rs0. rewrite <- app_assoc. split; [reflexivity|assumption].
Qed.

Lemma syncLoop_rejects ms options acc st e st' :
  IndexTs.syncLoop ms options acc st = (inl e, st') <->
  exists pre m post rs st1,
    ms = pre ++ m :: post /\
    reconciledInOrder options pre st rs st1 /\
    syncIndexes m options st1 = (inl e, st').
Proof.
  revert acc st. induction ms as [|m ms IH]; intros acc st; cbn [IndexTs.syncLoop].
  - unfold resolve. split; [discriminate|].
    intros (pre & m & post & rs & st1 & Hms & _). now destruct pre.
  - unfold await. destruct (syncIndexes m options st) as [[e0|r] st1] eqn:Hm.
    + split.
      * intros [= <- <-]. exists [], m, ms, [], st. repeat split; [constructor|exact Hm].
      * intros (pre & m' & post & rs & st0 & Hms & Hr & He).
        destruct pre as [|p pre]; cbn in Hms; injection Hms as <- Hms.
        -- inversion Hr; subst. congruence.
        -- inversion Hr; subst. congruence.
    + rewrite IH. split.
      * intros (pre & m' & post & rs & st0 & -> & Hr & He).
        exists (m :: pre), m', post. eexists. exists st0.
        repeat split; [econstructor; eassumption|exact He].
      * intros (pre & m' & post & rs & st0 & Hms & Hr & He).
        destruct pre as [|p pre]; cbn in Hms; injection Hms as <- Hms.
        -- inversion Hr; subst. congruence.
        -- inversion Hr as [|? ? ? r0 st2 rs0 ? Hm0 Hr0]; subst.
           rewrite Hm in Hm0. injection Hm0 as <- <-.
           exists pre, m', post, rs0, st0. repeat split; assumption.
Qed.

Lemma reconciledInOrder_names options ms st rs st' :
  reconciledInOrder options ms st rs st' ->
  map IndexTs.collectionName rs = map (fun m => collectionName (collection m)) ms.
Proof. induction 1; cbn; [reflexivity|]. now f_equal. Qed.
End SyncLoop.

(** ** The registry of models *)

Lemma filter_twice {A} (P Q : A -> Prop) `{!forall x, Decision (P x)}
  `{!forall x, Decision (Q x)} (l : list A) :
  filter P (filter Q l) = filter Q (filter P l).
Proof.
  induction l as [|x l IH]; [reflexivity|].
  rewrite !filter_cons.
  destruct (decide (Q x)) as [HQ|HQ], (decide (P x)) as [HP|HP];
    rewrite ?filter_cons, ?decide_True, ?decide_False by assumption;
    now rewrite ?IH.
Qed.

Lemma filter_same {A} (P : A -> Prop) `{!forall x, Decision (P x)} (l : list A) :
  filter P (filter P l) = filter P l.
Proof.
  induction l as [|x l IH]; [reflexivity|].
  rewrite filter_cons. destruct (decide (P x)) as [HP|HP]; [|exact IH].
  rewrite filter_cons, decide_True by assumption. now rewrite IH.
Qed.

Lemma filter_absent (n : string) (l : list string) :
  n ∉ l -> filter (fun x => x <> n) l = l.
Proof.
  induction l as [|x l IH]; intros Hn; [reflexivity|].
  rewrite not_elem_of_cons in Hn. destruct Hn as [Hx Hl].
  rewrite filter_cons, decide_True by congruence. now rewrite IH.
Qed.

Lemma firstOccurrences_elem (x : string) (l : list string) :
  x ∈ firstOccurrences l <-> x ∈ l.
Proof.
  induction l as [|n l IH]; [reflexivity|]. cbn [firstOccurrences].
  rewrite !elem_of_cons, list_elem_of_filter, IH.
  destruct (decide (x = n)); intuition.
Qed.

Lemma firstOccurrences_NoDup (l : list string) : NoDup (firstOccurrences l).
Proof.
  induction l as [|n l IH]; cbn [firstOccurrences]; constructor.
  - rewrite list_elem_of_filter. now intros [Hne _].
  - now apply NoDup_filter.
Qed.

Lemma firstOccurrences_of_NoDup (l : list string) :
  NoDup l -> firstOccurrences l = l.
Proof.
  induction 1 as [|n l Hn Hl IH]; [reflexivity|].
  cbn [firstOccurrences]. rewrite IH. now rewrite filter_absent.
Qed.

Lemma firstOccurrences_skip_filtered (k : string) (A B : list string) :
  filter (fun x => x <> k) (firstOccurrences (A ++ k :: B)) =
  filter (fun x => x <> k) (firstOccurrences (A ++ B)).
Proof.
  induction A as [|a A IH]; cbn [app firstOccurrences].
  - rewrite filter_cons, decide_False by (intros Hn; now apply Hn).
    apply filter_same.
  - rewrite !filter_cons.
    rewrite (filter_twice (fun x => x <> k) (fun x => x <> a)), IH.
    now rewrite (filter_twice (fun x => x <> a) (fun x => x <> k)).
Qed.

Lemma firstOccurrences_repeated (c : string) (K R : list string) :
  c ∈ K -> firstOccurrences (K ++ c :: R) = firstOccurrences (K ++ R).
Proof.
  induction K as [|k K IH]; intros Hc; [now apply elem_of_nil in Hc|].
  cbn [app firstOccurrences]. f_equal.
  destruct (decide (c = k)) as [->|Hne].
  - apply firstOccurrences_skip_filtered.
  - rewrite IH; [reflexivity|]. apply elem_of_cons in Hc as [?|?]; congruence.
Qed.

Section MapFacts.
Context {V : Type}.
Implicit Types (entries : list (string * V)).

Lemma mapSet_keys k v entries :
  map fst (IndexTs.mapSet k v entries) =
  if decide (k ∈ map fst entries) then map fst entries else map fst entries ++ [k].
Proof.
  induction entries as [|[k' v'] rest IH]; cbn [IndexTs.mapSet map fst].
  - now rewrite decide_False by apply not_elem_of_nil.
  - destruct (String.eqb_spec k' k) as [->|Hne]; cbn [map fst app].
    + now rewrite decide_True by apply list_elem_of_here.
    + rewrite IH. destruct (decide (k ∈ map fst rest)) as [Hin|Hout].
      * now rewrite decide_True by (now apply list_elem_of_further).
      * rewrite decide_False; [reflexivity|].
        rewrite elem_of_cons. intros [?|?]; congruence.
Qed.

Lemma mapGet_mapSet c k v entries :
  IndexTs.mapGet c (IndexTs.mapSet k v entries) =
  if String.eqb k c then Some v else IndexTs.mapGet c entries.
Proof.
  induction entries as [|[k' v'] rest IH]; cbn [IndexTs.mapSet IndexTs.mapGet].
  - reflexivity.
  - destruct (String.eqb_spec k' k) as [->|Hne]; cbn [IndexTs.mapGet].
    + now destruct (String.eqb k c).
    + rewrite IH. destruct (String.eqb_spec k' c) as [->|Hne']; [|reflexivity].
      now rewrite (proj2 (String.eqb_neq k c)) by congruence.
Qed.
End MapFacts.

Lemma mapSet_keyedByCollection k options entries :
  keyedByCollection entries ->
  keyedByCollection (IndexTs.mapSet k (newModel k options) entries).
Proof.
  induction 1 as [|[k' v'] rest Hk Hrest IH]; cbn [IndexTs.mapSet].
  - now repeat constructor.
  - destruct (String.eqb k' k); constructor; auto.
Qed.

Lemma registerAll_keys tm regs :
  NoDup (map fst (IndexTs.models tm)) ->
  map fst (IndexTs.models (registerAll tm regs)) =
  firstOccurrences (map fst (IndexTs.models tm) ++ map fst regs).
Proof.
  revert tm. induction regs as [|[c o] regs IH]; intros tm Hnd.
  - cbn. rewrite app_nil_r. now rewrite firstOccurrences_of_NoDup.
  - change (registerAll tm ((c, o) :: regs))
      with (registerAll (snd (IndexTs.model tm c o)) regs).
    cbn [fst snd map]. rewrite IH; cbn [IndexTs.model snd IndexTs.models];
      rewrite mapSet_keys; destruct (decide (c ∈ map fst (IndexTs.models tm))) as [Hin|Hout].
    + now rewrite firstOccurrences_repeated.
    + now rewrite <- app_assoc.
    + assumption.
    + apply NoDup_app. repeat split; [assumption| |apply NoDup_singleton].
      intros x Hx Hx'. apply list_elem_of_singleton in Hx'. congruence.
Qed.

Lemma registerAll_get coll tm regs :
  IndexTs.mapGet coll (IndexTs.models (registerAll tm regs)) =
  match lastRegistration coll regs with
  | Some o => Some (newModel coll o)
  | None => IndexTs.mapGet coll (IndexTs.models tm)
  end.
Proof.
  revert tm. induction regs as [|[c o] regs IH]; intros tm; [reflexivity|].
  change (registerAll tm ((c, o) :: regs))
    with (registerAll (snd (IndexTs.model tm c o)) regs).
  rewrite IH. cbn [lastRegistration].
  destruct (lastRegistration coll regs); [reflexivity|].
  cbn [IndexTs.model snd IndexTs.models]. rewrite mapGet_mapSet.
  now destruct (String.eqb_spec c coll) as [->|Hne].
Qed.

Lemma registerAll_keyedByCollection tm regs :
  keyedByCollection (IndexTs.models tm) ->
  keyedByCollection (IndexTs.models (registerAll tm regs)).
Proof.
  revert tm. induction regs as [|[c o] regs IH]; intros tm Hk; [exact Hk|].
  change (registerAll tm ((c, o) :: regs))
    with (registerAll (snd (IndexTs.model tm c o)) regs).
  apply IH. cbn [IndexTs.model snd IndexTs.models fst].
  now apply mapSet_keyedByCollection.
Qed.

Lemma keyedByCollection_names entries :
  keyedByCollection entries ->
  map (fun m => collectionName (collection m)) (IndexTs.mapValues entries) = map fst entries.
Proof.
  induction 1 as [|e rest He Hrest IH]; [reflexivity|].
  cbn. unfold IndexTs.mapValues in IH. now rewrite He, IH.
Qed.

(** C10.  After any sequence of [model] calls on a fresh [TypedMongo], the
    registry holds each collection name once, at the position of its first
    registration, bound to the model of its last registration; and every
    aggregate that [syncIndexes] resolves to has exactly one entry per
    name, in that order. *)
Theorem C10_redeclared_model_keeps_first_position
  (regs : list (string * ModelOptions)) :
  let tm := registerAll IndexTs.newTypedMongo regs in
  map fst (IndexTs.getModels tm) = firstOccurrences (map fst regs) /\
  NoDup (map fst (IndexTs.getModels tm)) /\
  (forall coll,
     IndexTs.mapGet coll (IndexTs.getModels tm) =
     option_map (newModel coll) (lastRegistration coll regs)) /\
  (forall (W : Type) (S : Store W) options (st : St W) rs st',
     IndexTs.syncIndexes tm options st = (inr rs, st') ->
     map IndexTs.collectionName rs = firstOccurrences (map fst regs) /\
     NoDup (map IndexTs.collectionName rs)).
Proof.
  intros tm. unfold IndexTs.getModels.
  assert (Hkeys : map fst (IndexTs.models tm) = firstOccurrences (map fst regs)).
  { subst tm. rewrite registerAll_keys by constructor. reflexivity. }
  split; [exact Hkeys|]. split; [rewrite Hkeys; apply firstOccurrences_NoDup|]. split.
  - intros coll. subst tm. rewrite registerAll_get.
    now destruct (lastRegistration coll regs).
  - intros W S options st rs st' Hrun. unfold IndexTs.syncIndexes in Hrun.
    apply syncLoop_resolves in Hrun as (rs' & -> & Hr). cbn [app].
    rewrite (reconciledInOrder_names _ _ _ _ _ Hr).
    rewrite keyedByCollection_names
      by (subst tm; apply registerAll_keyedByCollection; constructor).
    rewrite Hkeys. split; [reflexivity|apply firstOccurrences_NoDup].
Qed.

(** ** The models the aggregate run visits *)

Lemma values_by_get {V : Type} (d : V) (entries : list (string * V)) :
  NoDup (map fst entries) ->
  map snd entries = map (fun k => default d (IndexTs.mapGet k entries)) (map fst entries).
Proof.
  induction entries as [|[k v] rest IH]; intros Hnd; [reflexivity|].
  cbn [map fst snd] in *. apply NoDup_cons in Hnd as [Hk Hrest].
  cbn [IndexTs.mapGet]. rewrite String.eqb_refl. cbn [default]. f_equal.
  rewrite (IH Hrest). apply map_ext_in. intros k' Hin.
  apply list_elem_of_In in Hin.
  destruct (String.eqb_spec k k') as [->|Hne]; [contradiction|reflexivity].
Qed.

Lemma lastRegistration_unregistered coll regs :
  coll ∉ map fst regs -> lastRegistration coll regs = None.
Proof.
  induction regs as [|[c o] rest IH]; intros Hout; [reflexivity|].
  cbn [map fst] in Hout. apply not_elem_of_cons in Hout as [Hne Hrest].
  cbn [lastRegistration]. rewrite (IH Hrest).
  now rewrite (proj2 (String.eqb_neq c coll)) by congruence.
Qed.

Lemma lastRegistration_registered coll regs :
  coll ∈ map fst regs -> exists o, lastRegistration coll regs = Some o.
Proof.
  induction regs as [|[c o] rest IH]; intros Hin; [now apply elem_of_nil in Hin|].
  cbn [lastRegistration]. destruct (lastRegistration coll rest) as [o'|] eqn:Hlast; [eauto|].
  cbn [map fst] in Hin. apply elem_of_cons in Hin as [->|Hin].
  - rewrite String.eqb_refl. eauto.
  - destruct (IH Hin) as [o' Ho']. discriminate.
Qed.

Lemma lastRegistration_distinct coll o regs :
  NoDup (map fst regs) -> (coll, o) ∈ regs -> lastRegistration coll regs = Some o.
Proof.
  induction regs as [|[c o0] rest IH]; intros Hnd Hin; [now apply elem_of_nil in Hin|].
  cbn [map fst] in Hnd. apply NoDup_cons in Hnd as [Hc Hrest].
  cbn [lastRegistration]. apply elem_of_cons in Hin as [[= -> ->]|Hin].
  - rewrite (lastRegistration_unregistered _ _ Hc). now rewrite String.eqb_refl.
  - now rewrite (IH Hrest Hin).
Qed.

(** The values of the registry are the registered models. *)
Lemma registerAll_values regs :
  map snd (IndexTs.models (registerAll IndexTs.newTypedMongo regs)) = registeredModels regs.
Proof.
  assert (Hkeys : map fst (IndexTs.models (registerAll IndexTs.newTypedMongo regs))
                  = firstOccurrences (map fst regs))
    by (rewrite registerAll_keys by constructor; reflexivity).
  rewrite (values_by_get (newModel "" {| opt_indexes := None |}))
    by (rewrite Hkeys; apply firstOccurrences_NoDup).
  rewrite Hkeys. unfold registeredModels. apply map_ext_in. intros coll Hin.
  apply list_elem_of_In, firstOccurrences_elem, lastRegistration_registered in Hin
    as [o Ho].
  rewrite registerAll_get. unfold lastOptions. now rewrite Ho.
Qed.

Lemma registeredModels_distinct regs :
  NoDup (map fst regs) ->
  registeredModels regs = map (fun reg => newModel (fst reg) (snd reg)) regs.
Proof.
  intros Hnd. unfold registeredModels.
  rewrite (firstOccurrences_of_NoDup _ Hnd), map_map.
  apply map_ext_in. intros [coll o] Hin. apply list_elem_of_In in Hin.
  cbn [fst snd]. unfold lastOptions. now rewrite (lastRegistration_distinct _ _ _ Hnd Hin).
Qed.

Lemma registeredModels_names regs :
  map (fun m => collectionName (collection m)) (registeredModels regs)
  = firstOccurrences (map fst regs).
Proof. unfold registeredModels. rewrite map_map. cbn. apply map_id. Qed.

(** C6.  After the registrations [regs] on a fresh [TypedMongo], the
    models are the registered ones in registration order: for distinct
    names, one model per registration, in the order of the registrations.
    [TypedMongo.syncIndexes] resolves exactly when these models are
    reconciled one after the other in that order, each successfully; the
    aggregate then has one entry per model, in that order.  It is rejected
    with [e] exactly when some model's run is rejected with [e] after the
    runs of the models registered before it: the state is then the one
    that run ended in, so no later model is touched, and the rejection
    carries no entry of the earlier ones. *)
Theorem C6_models_visited_in_registration_order
  {W : Type} `{Store W} (regs : list (string * ModelOptions)) options (st : St W) :
  let tm := registerAll IndexTs.newTypedMongo regs in
  let ms := registeredModels regs in
  (NoDup (map fst regs) -> ms = map (fun reg => newModel (fst reg) (snd reg)) regs) /\
  (forall rs st',
     IndexTs.syncIndexes tm options st = (inr rs, st') <->
     reconciledInOrder options ms st rs st') /\
  (forall rs st',
     IndexTs.syncIndexes tm options st = (inr rs, st') ->
     map IndexTs.collectionName rs = firstOccurrences (map fst regs) /\
     length rs = length ms) /\
  (forall e st',
     IndexTs.syncIndexes tm options st = (inl e, st') <->
     exists pre m post rs st1,
       ms = pre ++ m :: post /\
       reconciledInOrder options pre st rs st1 /\
       syncIndexes m options st1 = (inl e, st')).
Proof.
  intros tm ms. split; [apply registeredModels_distinct|].
  unfold IndexTs.syncIndexes, IndexTs.mapValues. subst tm.
  rewrite registerAll_values. fold ms.
  assert (Hok : forall rs st',
             IndexTs.syncLoop ms options [] st = (inr rs, st') <->
             reconciledInOrder options ms st rs st').
  { intros rs st'. rewrite syncLoop_resolves. cbn. split.
    - now intros (rs' & -> & Hr).
    - intros Hr. now exists rs. }
  split; [exact Hok|]. split.
  - intros rs st' Hrun. apply Hok in Hrun.
    pose proof (reconciledInOrder_names _ _ _ _ _ Hrun) as Hnames.
    split; [now rewrite Hnames; apply registeredModels_names|].
    now rewrite <- (length_map IndexTs.collectionName), Hnames, length_map.
  - intros e st'. apply syncLoop_rejects.
Qed.

Lemma C6_registration_order_witness :
  IndexTs.syncIndexes (registerAll IndexTs.newTypedMongo shopRegs) None (start shopWorld)
  = (inr [ {| IndexTs.collectionName := "posts";
              IndexTs.created := ["title_1"]; IndexTs.dropped := [] |};
           {| IndexTs.collectionName := "users";
              IndexTs.created := ["email_1"]; IndexTs.dropped := ["name_1"; "age_1"] |};
           {| IndexTs.collectionName := "logs";
              IndexTs.created := ["at_1"]; IndexTs.dropped := [] |} ],
     mkSt (<["logs" := [idIndex; info "at"]]>
             (<["users" := [idIndex; info "email"]]>
                (<["posts" := [idIndex; info "title"]]> shopWorld)))
       [CallListIndexes "posts" None; CallCreateIndexes "posts" [asc "title"];
        CallListIndexes "users" None; CallCreateIndexes "users" [asc "email"];
        CallDropIndex "users" "name_1"; CallDropIndex "users" "age_1";
        CallListIndexes "logs" None; CallCreateIndexes "logs" [asc "at"]]) /\
  IndexTs.syncIndexes (registerAll IndexTs.newTypedMongo shopRegs) None
    (mkSt (LockedStore.mkWorld ["age_1"] shopWorld) [])
  = (inl LockedStore.unauthorized,
     mkSt (LockedStore.mkWorld ["age_1"]
             (<["users" := [idIndex; info "age"; info "email"]]>
                (<["posts" := [idIndex; info "title"]]> shopWorld)))
       [CallListIndexes "posts" None; CallCreateIndexes "posts" [asc "title"];
        CallListIndexes "users" None; CallCreateIndexes "users" [asc "email"];
        CallDropIndex "users" "name_1"; CallDropIndex "users" "age_1"]).
Proof.
  split.
  - destruct (C6_models_visited_in_registration_order shopRegs None (start shopWorld))
      as (_ & Hok & _ & _).
    apply Hok.
    eapply reconciled_cons with (r := {| created := ["title_1"]; dropped := [] |});
      [vm_compute; reflexivity|].
    eapply reconciled_cons
      with (r := {| created := ["email_1"]; dropped := ["name_1"; "age_1"] |});
      [vm_compute; reflexivity|].
    eapply reconciled_cons with (r := {| created := ["at_1"]; dropped := [] |});
      [vm_compute; reflexivity|].
    apply reconciled_nil.
  - destruct (C6_models_visited_in_registration_order shopRegs None
                (mkSt (LockedStore.mkWorld ["age_1"] shopWorld) []))
      as (_ & _ & _ & Hrej).
    apply Hrej.
    exists [newModel "posts" {| opt_indexes := Some [asc "title"] |}],
           (newModel "users" {| opt_indexes := Some [asc "email"] |}),
           [newModel "logs" {| opt_indexes := Some [asc "at"] |}].
    eexists _, _. split; [vm_compute; reflexivity|]. split.
    + eapply reconciled_cons; [vm_compute; reflexivity|apply reconciled_nil].
    + vm_compute. reflexivity.
Defined.

(** ** Two runs in a row *)

Lemma elem_of_map {A B} (f : A -> B) (l : list A) (y : B) :
  y ∈ map f l <-> exists x, y = f x /\ x ∈ l.
Proof. exact (list_elem_of_fmap f l y). Qed.

Section Idempotence.
Context {W : Type} `{Store W}.
Implicit Types (c : Collection) (st : St W) (w : W).

(** A drop loop that resolves has had every one of its drops accepted. *)
Lemma dropLoop_resolved c names acc st d st' :
  dropLoop c names acc st = (inr d, st') ->
  dropsSucceed (collectionName c) (filter (fun x => x <> "_id_") names)
    (world st) (world st').
Proof.
  revert acc st. induction names as [|n rest IH]; intros acc st.
  - cbn. unfold resolve. intros [= _ <-]. constructor.
  - rewrite eqb_id_filter. cbn [dropLoop].
    destruct (String.eqb n "_id_"); [apply IH|].
    unfold await, callDropIndex.
    destruct (dropIndex (collectionName c) n (world st)) as [[e|[]] w1] eqn:Hd;
      [discriminate|].
    intros Hrest. apply IH in Hrest. cbn [world] in Hrest.
    econstructor; eassumption.
Qed.

Context (contract : StoreContract W).

Lemma listed_after_drops coll options ns w w' E :
  dropsSucceed coll ns w w' ->
  listedNames coll options w = inr E ->
  exists E', listedNames coll options w' = inr E' /\
             forall x, x ∈ E' <-> x ∈ E /\ x ∉ ns.
Proof.
  intros Hd. revert E. induction Hd as [w|n ns w w1 w2 Hdrop Hrest IH]; intros E HE.
  - exists E. split; [exact HE|]. intros x. split; [|tauto].
    intros Hx. split; [exact Hx|apply not_elem_of_nil].
  - destruct (drop_reflected coll options n w w1 E Hdrop HE) as (E1 & HE1 & Hx1).
    destruct (IH E1 HE1) as (E2 & HE2 & Hx2).
    exists E2. split; [exact HE2|]. intros x.
    rewrite Hx2, Hx1, not_elem_of_cons. tauto.
Qed.

Lemma listed_is_listing coll options w E :
  listedNames coll options w = inr E ->
  exists infos, listIndexes coll options w = (inr infos, w) /\ map info_name infos = E.
Proof.
  unfold listedNames. pose proof (list_readonly coll options w) as Hro.
  destruct (listIndexes coll options w) as [[e|infos] w0]; cbn in *; [discriminate|].
  intros [= <-]. subst w0. now exists infos.
Qed.
End Idempotence.

(** X14.  On a store that keeps the contract, a run of [syncIndexes] that
    has resolved is followed, for the same model, by a run that resolves
    to no creation and no drop. *)
Theorem X14_resolved_run_is_followed_by_an_empty_run
  {W : Type} `{Store W} (contract : StoreContract W)
  (m : Model) options (st : St W) res st1 :
  syncIndexes m options st = (inr res, st1) ->
  exists st2, syncIndexes m options st1 = (inr {| created := []; dropped := [] |}, st2).
Proof.
  intros Hrun. destruct (noIndexes m) eqn:Hn.
  { exists st1. now apply syncIndexes_early_exit. }
  set (coll := collectionName (collection m)) in *.
  destruct (listIndexes coll options (world st)) as [[e|infos] w1] eqn:Hl.
  { rewrite (syncIndexes_listing_rejected _ _ _ _ _ Hn Hl) in Hrun. discriminate. }
  destruct (createIndexes coll (default [] (indexes m)) w1) as [[e|M] w2] eqn:Hc.
  { rewrite (syncIndexes_create_rejected _ _ _ _ _ _ _ Hn Hl Hc) in Hrun. discriminate. }
  rewrite (syncIndexes_after_create _ _ _ _ _ _ _ Hn Hl Hc) in Hrun.
  unfold await in Hrun.
  match type of Hrun with context [dropLoop ?c ?names ?acc ?s] =>
    destruct (dropLoop c names acc s) as [[e|d] st3] eqn:Hloop end; [discriminate|].
  unfold resolve in Hrun. injection Hrun as _ <-.
  apply dropLoop_resolved in Hloop. cbn [world] in Hloop. fold coll in Hloop.
  set (E := map info_name infos) in *.
  set (D := filter (fun x => x <> "_id_") (list_difference E M)) in *.
  assert (HD : forall x, x ∈ D <-> x <> "_id_" /\ x ∈ E /\ x ∉ M).
  { intros x. subst D. now rewrite list_elem_of_filter, list_elem_of_difference. }
  (* the listing before the first run, after its create, after its drops *)
  assert (Hw1 : w1 = world st).
  { pose proof (list_readonly coll options (world st)) as Hro. now rewrite Hl in Hro. }
  subst w1.
  assert (HE : listedNames coll options (world st) = inr E).
  { unfold listedNames. now rewrite Hl. }
  destruct (create_reflected coll options _ _ _ _ _ Hc HE) as (E2 & HE2 & Hx2).
  destruct (listed_after_drops contract coll options _ _ _ _ Hloop HE2) as (E3 & HE3 & Hx3).
  destruct (listed_is_listing contract coll options _ _ HE3) as (infos3 & Hl3 & Hnames3).
  (* the create of the second run *)
  destruct (create_idempotent coll _ _ _ _ _ _ Hc Hloop) as (M' & w4 & Hc' & HM').
  { intros n Hin. now apply HD in Hin. }
  rewrite (syncIndexes_after_create m options st3 infos3 (world st3) M' w4 Hn Hl3 Hc').
  rewrite Hnames3.
  assert (Hnone : filter (fun x => x <> "_id_") (list_difference E3 M') = []).
  { apply elem_of_nil_inv. intros x Hx.
    apply list_elem_of_filter in Hx as [Hid Hx].
    apply list_elem_of_difference in Hx as [Hx3' HxM].
    rewrite HM' in HxM. apply Hx3 in Hx3' as [Hx2' HxD].
    apply Hx2 in Hx2' as [HxE|HxM']; [|contradiction].
    apply HxD, HD. tauto. }
  assert (Hnew : list_difference M' E3 = []).
  { apply elem_of_nil_inv. intros x Hx.
    apply list_elem_of_difference in Hx as [HxM Hx3'].
    rewrite HM' in HxM. apply Hx3'. apply Hx3. split; [apply Hx2; now right|].
    intros HxD. apply HD in HxD. tauto. }
  unfold await. erewrite dropLoop_all; rewrite Hnone; [|constructor].
  rewrite Hnew. unfold resolve. cbn [app]. eexists. reflexivity.
Qed.

(** ** The in-memory store keeps the contract *)

Lemma addAll_names ds l l' :
  addAll ds l = inr l' ->
  forall x, x ∈ map info_name l' <-> x ∈ map info_name l \/ x ∈ map indexName ds.
Proof.
  revert l. induction ds as [|d ds IH]; intros l; cbn [addAll map].
  - intros [= <-] x. rewrite elem_of_nil. tauto.
  - destruct (decide (infoOf d ∈ l)) as [Hin|Hout].
    + intros Hl x. rewrite (IH _ Hl), elem_of_cons. split; [tauto|].
      intros [?|[->|?]]; [tauto| |tauto].
      left. apply elem_of_map. now exists (infoOf d).
    + destruct (decide (indexName d ∈ map info_name l)); [discriminate|].
      intros Hl x. rewrite (IH _ Hl), map_app, elem_of_app, elem_of_cons. cbn [map].
      rewrite list_elem_of_singleton. cbn [infoOf info_name]. tauto.
Qed.

Lemma addAll_present ds l l' :
  addAll ds l = inr l' ->
  l ⊆ l' /\ forall d, d ∈ ds -> infoOf d ∈ l'.
Proof.
  revert l. induction ds as [|d ds IH]; intros l; cbn [addAll].
  - intros [= <-]. split; [reflexivity|]. intros d Hd. now apply elem_of_nil in Hd.
  - destruct (decide (infoOf d ∈ l)) as [Hin|Hout].
    + intros Hl. destruct (IH _ Hl) as [Hsub Hds]. split; [exact Hsub|].
      intros d' Hd'. apply elem_of_cons in Hd' as [->|Hd']; [now apply Hsub|now apply Hds].
    + destruct (decide (indexName d ∈ map info_name l)); [discriminate|].
      intros Hl. destruct (IH _ Hl) as [Hsub Hds]. split.
      * intros x Hx. apply Hsub, elem_of_app. now left.
      * intros d' Hd'. apply elem_of_cons in Hd' as [->|Hd']; [|now apply Hds].
        apply Hsub, elem_of_app. right. apply list_elem_of_here.
Qed.

Lemma addAll_again ds l :
  (forall d, d ∈ ds -> infoOf d ∈ l) -> addAll ds l = inr l.
Proof.
  induction ds as [|d ds IH]; intros Hds; cbn [addAll]; [reflexivity|].
  rewrite decide_True by (apply Hds, list_elem_of_here).
  apply IH. intros d' Hd'. now apply Hds, list_elem_of_further.
Qed.

Lemma memDrop_accepted coll n (w w' : World) :
  memDrop coll n w = (inr tt, w') ->
  exists l, w !! coll = Some l /\
            w' = <[coll := filter (fun i => info_name i <> n) l]> w.
Proof.
  unfold memDrop. destruct (w !! coll) as [l|]; [|discriminate].
  destruct (decide (n = "_id_")); [discriminate|].
  destruct (decide (n ∈ map info_name l)); [|discriminate].
  intros [= <-]. now exists l.
Qed.

Lemma memStore_drops_keep coll ds ns (w w' : World) l :
  dropsSucceed coll ns w w' ->
  w !! coll = Some l ->
  (forall d, d ∈ ds -> infoOf d ∈ l) ->
  (forall n, n ∈ ns -> n ∉ map indexName ds) ->
  exists l', w' !! coll = Some l' /\ forall d, d ∈ ds -> infoOf d ∈ l'.
Proof.
  intros Hd. revert l. induction Hd as [w|n ns w w1 w2 Hdrop Hrest IH]; intros l Hl Hds Hns.
  - now exists l.
  - cbn in Hdrop. apply memDrop_accepted in Hdrop as (l0 & Hl0 & ->).
    rewrite Hl in Hl0. injection Hl0 as <-.
    apply (IH (filter (fun i => info_name i <> n) l)).
    + apply lookup_insert_eq.
    + intros d Hd'. apply list_elem_of_filter. split; [|now apply Hds].
      cbn [infoOf info_name]. intros <-.
      apply (Hns (indexName d)); [apply list_elem_of_here|].
      apply elem_of_map. now exists d.
    + intros n' Hn'. now apply Hns, list_elem_of_further.
Qed.

Lemma memStore_contract : StoreContract MemStore.World.
Proof.
  split.
  - apply memStore_listing_reads_only.
  - intros coll options ds w M w' E Hc HE. cbn in Hc. unfold memCreate in Hc.
    unfold listedNames in *. cbn in *. unfold memList in *.
    destruct (w !! coll) as [l|] eqn:Hw; [|discriminate]. cbn in *.
    injection HE as <-.
    destruct (addAll ds l) as [e|l'] eqn:Ha; [discriminate|].
    injection Hc as <- <-. rewrite lookup_insert_eq. cbn.
    eexists. split; [reflexivity|]. now apply addAll_names.
  - intros coll options n w w' E Hd HE. cbn in Hd.
    apply memDrop_accepted in Hd as (l & Hl & ->).
    unfold listedNames in *. cbn in *. unfold memList in *.
    rewrite Hl in HE. cbn in HE. injection HE as <-.
    rewrite lookup_insert_eq. cbn. eexists. split; [reflexivity|].
    intros x. rewrite !elem_of_map. split.
    + intros (i & -> & Hi). apply list_elem_of_filter in Hi as [Hne Hi]. eauto.
    + intros [(i & -> & Hi) Hne]. exists i. split; [reflexivity|].
      now apply list_elem_of_filter.
  - intros coll ds w M w' ns w'' Hc Hd Hns. cbn in Hc. unfold memCreate in Hc.
    destruct (addAll ds (default [idIndex] (w !! coll))) as [e|l'] eqn:Ha; [discriminate|].
    injection Hc as <- <-.
    destruct (addAll_present _ _ _ Ha) as [_ Hds].
    destruct (memStore_drops_keep coll ds ns _ _ l' Hd (lookup_insert_eq _ _ _) Hds Hns)
      as (l'' & Hl'' & Hds'').
    exists (map indexName ds), (<[coll := l'']> w''). split; [|reflexivity].
    cbn. unfold memCreate. rewrite Hl''. cbn. now rewrite (addAll_again _ _ Hds'').
Qed.

(** C7.  The in-memory store keeps the contract.  On it, for a collection
    that does not exist yet and a model with one desired index, the first
    run of [syncIndexes] is rejected with NamespaceNotFound, having made
    the listing call only, and the second run, from the state the first
    left, is rejected in the same way: two runs in a row do not end in no
    creation and no drop.  The specification has the first run start from
    an empty set of existing names and create the index. *)
Theorem C7_second_run_on_a_missing_collection_is_rejected :
  StoreContract MemStore.World /\
  let m := newModel "users" {| opt_indexes := Some [asc "name"] |} in
  let st1 := snd (syncIndexes m None (start ∅)) in
  syncIndexes m None (start ∅)
  = (inl namespaceNotFound, mkSt ∅ [CallListIndexes "users" None]) /\
  syncIndexes m None st1
  = (inl namespaceNotFound,
     mkSt ∅ [CallListIndexes "users" None; CallListIndexes "users" None]).
Proof.
  split; [exact memStore_contract|]. split; vm_compute; reflexivity.
Qed.

Lemma X14_resolved_run_witness :
  fst (syncIndexes emailModel None
         (snd (syncIndexes emailModel None (start usersWorld))))
  = inr {| created := []; dropped := [] |}.
Proof.
  destruct (X14_resolved_run_is_followed_by_an_empty_run memStore_contract emailModel None
              (start usersWorld)
              {| created := ["email_1"]; dropped := ["name_1"; "age_1"] |}
              (snd (syncIndexes emailModel None (start usersWorld))))
    as [st2 Hsecond]; [vm_compute; reflexivity|].
  now rewrite Hsecond.
Defined.

(** ** The scenarios of the specification, on the in-memory store *)

Example scenario_one_new_index :
  fst (syncIndexes (newModel "users" {| opt_indexes := Some [asc "name"; asc "age"] |})
         None (start (users [info "name"])))
  = inr {| created := ["age_1"]; dropped := [] |}.
Proof. vm_compute. reflexivity. Qed.

Example scenario_replaced_indexes :
  fst (syncIndexes emailModel None (start (users [info "name"; info "age"])))
  = inr {| created := ["email_1"]; dropped := ["name_1"; "age_1"] |}.
Proof. vm_compute. reflexivity. Qed.

Example scenario_empty_desired_list :
  syncIndexes (newModel "users" {| opt_indexes := Some [] |}) None
    (start (users [idIndex; info "tag"]))
  = (inr {| created := []; dropped := [] |}, start (users [idIndex; info "tag"])).
Proof. reflexivity. Qed.

Example scenario_redeclared_model :
  fst (IndexTs.syncIndexes
         (registerAll IndexTs.newTypedMongo
            [("users", {| opt_indexes := Some [asc "email"] |});
             ("posts", {| opt_indexes := None |});
             ("users", {| opt_indexes := Some [asc "name"] |})])
         None (start usersWorld))
  = inr [ {| IndexTs.collectionName := "users";
             IndexTs.created := [];
             IndexTs.dropped := ["age_1"] |};
          {| IndexTs.collectionName := "posts";
             IndexTs.created := [];
             IndexTs.dropped := [] |} ].
Proof. vm_compute. reflexivity. Qed.

(** * Further properties of the reconciliation *)

(** ** Every run is one of five *)

Section OutcomeFacts.
Context {W : Type} `{Store W}.

(** Drops issued one after the other either all succeed or stop at a first
    rejected one. *)
Lemma drops_outcome (coll : string) (D : list string) (w : W) :
  (exists w', dropsSucceed coll D w w') \/
  (exists pre n post w' e w'',
     D = pre ++ n :: post /\
     dropsSucceed coll pre w w' /\
     dropIndex coll n w' = (inl e, w'')).
Proof.
  revert w. induction D as [|n D IH]; intros w.
  - left. exists w. constructor.
  - destruct (dropIndex coll n w) as [[e|[]] w1] eqn:Hd.
    + right. exists [], n, D, w, e, w1. repeat split; [constructor|exact Hd].
    + destruct (IH w1) as [(w' & Hok)|(pre & x & post & w' & e & w'' & -> & Hpre & He)].
      * left. exists w'. econstructor; eassumption.
      * right. exists (n :: pre), x, post, w', e, w''.
        repeat split; [econstructor; eassumption|exact He].
Qed.

Lemma syncIndexes_outcome (m : Model) options (st : St W) :
  syncOutcome m options st (syncIndexes m options st).
Proof.
  destruct (noIndexes m) eqn:Hn.
  { rewrite (syncIndexes_early_exit _ _ _ Hn). now constructor. }
  destruct (listIndexes (collectionName (collection m)) options (world st))
    as [[e|infos] w1] eqn:Hl.
  { rewrite (syncIndexes_listing_rejected _ _ _ _ _ Hn Hl). now constructor. }
  destruct (createIndexes (collectionName (collection m)) (default [] (indexes m)) w1)
    as [[e|M] w2] eqn:Hc.
  { rewrite (syncIndexes_create_rejected _ _ _ _ _ _ _ Hn Hl Hc).
    econstructor; eassumption. }
  rewrite (syncIndexes_after_create _ _ _ _ _ _ _ Hn Hl Hc). unfold await.
  destruct (drops_outcome (collectionName (collection m))
              (filter (fun x => x <> "_id_") (list_difference (map info_name infos) M)) w2)
    as [(w3 & Hok)|(pre & n & post & w3 & e & w4 & Hsplit & Hpre & He)].
  - rewrite (dropLoop_all _ _ _ _ _ _ Hok). unfold resolve. cbn [app].
    rewrite <- app_assoc. econstructor; eassumption.
  - rewrite (dropLoop_stops _ _ _ _ _ _ _ _ _ _ _ Hsplit Hpre He).
    rewrite <- !app_assoc. econstructor; eassumption.
Qed.
End OutcomeFacts.

(** X1.  A run of [syncIndexes] ends in [out] exactly when [out] is one of
    the five outcomes: skipped, rejected by the listing, by the create or
    by a drop, or resolved after every drop. *)
Theorem X1_run_is_one_of_five_outcomes
  {W : Type} `{Store W} (m : Model) options (st : St W) out :
  syncIndexes m options st = out <-> syncOutcome m options st out.
Proof.
  split; [intros <-; apply syncIndexes_outcome|].
  intros Hout. destruct Hout as [Hn|e w Hn Hl|infos w1 e w2 Hn Hl Hc
    |infos w1 M w2 pre n post w3 e w4 Hn Hl Hc Hsplit Hpre He|infos w1 M w2 w3 Hn Hl Hc Hok].
  - now apply syncIndexes_early_exit.
  - now apply syncIndexes_listing_rejected.
  - eapply syncIndexes_create_rejected; eassumption.
  - rewrite (syncIndexes_after_create _ _ _ _ _ _ _ Hn Hl Hc). unfold await.
    rewrite (dropLoop_stops _ _ _ _ _ _ _ _ _ _ _ Hsplit Hpre He).
    now rewrite <- !app_assoc.
  - rewrite (syncIndexes_after_create _ _ _ _ _ _ _ Hn Hl Hc). unfold await.
    rewrite (dropLoop_all _ _ _ _ _ _ Hok). unfold resolve. cbn [app].
    now rewrite <- app_assoc.
Qed.

(** ** What a run asks of the store *)

Section ProtocolFacts.
Context {W : Type} `{Store W}.

Lemma protocol_calls_own (coll : string) options descs (ds : list string) call :
  call ∈ [CallListIndexes coll options; CallCreateIndexes coll descs]
         ++ map (CallDropIndex coll) ds ->
  callColl call = coll.
Proof.
  rewrite elem_of_app, !elem_of_cons, elem_of_nil, elem_of_map.
  intros [[->|[->|[]]]|(n & -> & _)]; reflexivity.
Qed.

Lemma noIndexes_false_declared (m : Model) :
  noIndexes m = false ->
  indexes m = Some (default [] (indexes m)) /\ default [] (indexes m) <> [].
Proof.
  unfold noIndexes. destruct (indexes m) as [[|d l]|]; try discriminate.
  intros _. split; [reflexivity|discriminate].
Qed.

(** The calls of a run are a beginning of: the listing, the create of the
    declared descriptors, drops. *)
Lemma syncIndexes_protocol (m : Model) options (st : St W) :
  exists calls ds,
    log (snd (syncIndexes m options st)) = log st ++ calls /\
    calls `prefix_of`
      ([CallListIndexes (collectionName (collection m)) options;
        CallCreateIndexes (collectionName (collection m)) (default [] (indexes m))]
       ++ map (CallDropIndex (collectionName (collection m))) ds) /\
    (calls = [] -> snd (syncIndexes m options st) = st) /\
    (calls <> [] -> noIndexes m = false).
Proof.
  generalize (syncIndexes_outcome m options st).
  generalize (syncIndexes m options st). intros out Hout.
  destruct Hout as [Hn|e w Hn Hl|infos w1 e w2 Hn Hl Hc
    |infos w1 M w2 pre n post w3 e w4 Hn Hl Hc Hsplit Hpre He|infos w1 M w2 w3 Hn Hl Hc Hok];
    cbn [fst snd log].
  - exists [], []. rewrite app_nil_r.
    split; [reflexivity|]. split; [apply prefix_nil|]. split; congruence.
  - exists [CallListIndexes (collectionName (collection m)) options], [].
    split; [reflexivity|]. split; [|split; [discriminate|intros _; exact Hn]].
    now exists [CallCreateIndexes (collectionName (collection m)) (default [] (indexes m))].
  - eexists _, []. split; [reflexivity|]. cbn [map]. rewrite app_nil_r.
    split; [reflexivity|]. split; [discriminate|intros _; exact Hn].
  - eexists _, (pre ++ [n]). split; [reflexivity|]. rewrite map_app. cbn [map].
    split; [reflexivity|]. split; [discriminate|intros _; exact Hn].
  - eexists _, _. split; [reflexivity|].
    split; [reflexivity|]. split; [discriminate|intros _; exact Hn].
Qed.

Lemma syncIndexes_calls_own (m : Model) options (st : St W) :
  exists calls,
    log (snd (syncIndexes m options st)) = log st ++ calls /\
    forall call, call ∈ calls -> callColl call = collectionName (collection m).
Proof.
  destruct (syncIndexes_protocol m options st) as (calls & ds & Hlog & [k Hk] & _).
  exists calls. split; [exact Hlog|]. intros call Hin.
  apply (protocol_calls_own _ options (default [] (indexes m)) ds).
  rewrite Hk. apply elem_of_app. now left.
Qed.
End ProtocolFacts.

(** X2.  Whatever error the listing is rejected with, of whatever class,
    the run is rejected with that error after the listing call alone:
    nothing is created and nothing is dropped. *)
Theorem X2_listing_rejection_is_rethrown
  {W : Type} `{Store W} (m : Model) options (st : St W) e w :
  noIndexes m = false ->
  listIndexes (collectionName (collection m)) options (world st) = (inl e, w) ->
  syncIndexes m options st =
  (inl e, mkSt w (log st ++ [CallListIndexes (collectionName (collection m)) options])).
Proof. intros Hn Hl. now apply syncIndexes_listing_rejected. Qed.

Lemma X2_listing_rejection_witness :
  syncIndexes emailModel None (mkSt tt [])
  = (inl DownStore.connectionClosed, mkSt tt [CallListIndexes "users" None]).
Proof.
  apply (X2_listing_rejection_is_rethrown emailModel None (mkSt tt [])
           DownStore.connectionClosed tt); reflexivity.
Defined.

(** X3.  The calls a run makes are a beginning of the sequence: one
    listing, one create of the declared descriptors, then drops.  All of
    them are on the model's own collection, a create never carries an
    empty descriptor list, and a run that makes no call leaves the state
    as it was. *)
Theorem X3_calls_follow_the_protocol
  {W : Type} `{Store W} (m : Model) options (st : St W) :
  exists calls ds,
    log (snd (syncIndexes m options st)) = log st ++ calls /\
    calls `prefix_of`
      ([CallListIndexes (collectionName (collection m)) options;
        CallCreateIndexes (collectionName (collection m)) (default [] (indexes m))]
       ++ map (CallDropIndex (collectionName (collection m))) ds) /\
    (forall call, call ∈ calls -> callColl call = collectionName (collection m)) /\
    (forall coll descs, CallCreateIndexes coll descs ∈ calls ->
       descs <> [] /\ indexes m = Some descs) /\
    (calls = [] -> snd (syncIndexes m options st) = st).
Proof.
  destruct (syncIndexes_protocol m options st) as (calls & ds & Hlog & Hpre & Hnil & Hn).
  exists calls, ds. split; [exact Hlog|]. split; [exact Hpre|].
  destruct Hpre as [k Hk]. split; [|split; [|exact Hnil]].
  - intros call Hin.
    apply (protocol_calls_own _ options (default [] (indexes m)) ds).
    rewrite Hk. apply elem_of_app. now left.
  - intros coll descs Hin.
    assert (Hne : calls <> []) by (intros ->; now apply elem_of_nil in Hin).
    destruct (noIndexes_false_declared m (Hn Hne)) as [Hdecl Hnonempty].
    assert (Hfull : CallCreateIndexes coll descs ∈ calls ++ k)
      by (apply elem_of_app; now left).
    rewrite <- Hk, elem_of_app, !elem_of_cons, elem_of_nil, elem_of_map in Hfull.
    destruct Hfull as [[Heq|[Heq|[]]]|(n & Heq & _)]; try discriminate.
    injection Heq as _ ->. now split.
Qed.

(** ** What a run drops and reports *)

(** X4.  Every drop a run issues, also a run that ends up rejected, is on
    the model's own collection and is for a name that the listing of this
    run showed, that [createIndexes] did not return, and that is not
    ["_id_"]. *)
Theorem X4_every_drop_is_of_an_obsolete_name
  {W : Type} `{Store W} (m : Model) options (st : St W) infos w1 M w2 calls coll n :
  listIndexes (collectionName (collection m)) options (world st) = (inr infos, w1) ->
  createIndexes (collectionName (collection m)) (default [] (indexes m)) w1 = (inr M, w2) ->
  log (snd (syncIndexes m options st)) = log st ++ calls ->
  CallDropIndex coll n ∈ calls ->
  coll = collectionName (collection m) /\
  n ∈ map info_name infos /\ (n ∉ M) /\ n <> "_id_".
Proof.
  intros Hl Hc.
  generalize (syncIndexes_outcome m options st).
  generalize (syncIndexes m options st). intros out Hout.
  assert (Hcand : forall x,
             x ∈ filter (fun x => x <> "_id_") (list_difference (map info_name infos) M) ->
             x ∈ map info_name infos /\ (x ∉ M) /\ x <> "_id_").
  { intros x Hx. apply list_elem_of_filter in Hx as [Hid Hx].
    apply list_elem_of_difference in Hx. tauto. }
  destruct Hout as [Hn|e w Hn Hl'|infos' w1' e w2' Hn Hl' Hc'
    |infos' w1' M' w2' pre x post w3 e w4 Hn Hl' Hc' Hsplit Hpre He
    |infos' w1' M' w2' w3 Hn Hl' Hc' Hok];
    cbn [snd log]; intros Hlog Hin.
  - rewrite <- (app_nil_r (log st)) in Hlog at 1. apply app_inv_head in Hlog as <-.
    now apply elem_of_nil in Hin.
  - congruence.
  - rewrite Hl in Hl'. injection Hl' as <- <-. congruence.
  - rewrite Hl in Hl'. injection Hl' as <- <-. rewrite Hc in Hc'. injection Hc' as <- <-.
    apply app_inv_head in Hlog as <-.
    rewrite elem_of_app, !elem_of_cons, elem_of_nil, elem_of_app, elem_of_map,
      list_elem_of_singleton in Hin.
    destruct Hin as [[Heq|[Heq|[]]]|[(y & Heq & Hy)|Heq]]; try discriminate;
      injection Heq as -> ->; (split; [reflexivity|]); apply Hcand; rewrite Hsplit;
      apply elem_of_app; [now left|right; apply list_elem_of_here].
  - rewrite Hl in Hl'. injection Hl' as <- <-. rewrite Hc in Hc'. injection Hc' as <- <-.
    apply app_inv_head in Hlog as <-.
    rewrite elem_of_app, !elem_of_cons, elem_of_nil, elem_of_map in Hin.
    destruct Hin as [[Heq|[Heq|[]]]|(y & Heq & Hy)]; try discriminate.
    injection Heq as -> ->. split; [reflexivity|]. now apply Hcand.
Qed.

Lemma X4_every_drop_witness :
  "users" = "users" /\
  "age_1" ∈ ["_id_"; "name_1"; "age_1"] /\ ("age_1" ∉ ["email_1"]) /\ "age_1" <> "_id_".
Proof.
  apply (X4_every_drop_is_of_an_obsolete_name emailModel None (start usersWorld)
           [idIndex; info "name"; info "age"] usersWorld ["email_1"]
           (users [idIndex; info "name"; info "age"; info "email"])
           [CallListIndexes "users" None;
            CallCreateIndexes "users" [asc "email"];
            CallDropIndex "users" "name_1";
            CallDropIndex "users" "age_1"]
           "users" "age_1").
  - reflexivity.
  - vm_compute. reflexivity.
  - vm_compute. reflexivity.
  - do 3 apply list_elem_of_further. apply list_elem_of_here.
Defined.

(** X5.  No name is reported both as created and as dropped by the same
    run. *)
Theorem X5_created_and_dropped_are_disjoint
  {W : Type} `{Store W} (m : Model) options (st : St W) res st' :
  syncIndexes m options st = (inr res, st') ->
  forall x, x ∈ created res -> x ∉ dropped res.
Proof.
  intros Hrun. pose proof (syncIndexes_outcome m options st) as Hout.
  rewrite Hrun in Hout. inversion Hout; subst; cbn [created dropped]; intros x Hx.
  - now apply elem_of_nil in Hx.
  - apply list_elem_of_difference in Hx as [HxM _]. intros Hd.
    apply list_elem_of_filter in Hd as [_ Hd].
    apply list_elem_of_difference in Hd as [_ HxM']. contradiction.
Qed.

Lemma X5_created_and_dropped_witness : "email_1" ∉ ["name_1"; "age_1"].
Proof.
  apply (X5_created_and_dropped_are_disjoint emailModel None (start usersWorld)
           {| created := ["email_1"]; dropped := ["name_1"; "age_1"] |}
           (snd (syncIndexes emailModel None (start usersWorld)))).
  - vm_compute. reflexivity.
  - apply list_elem_of_here.
Defined.

(** X6.  The list a run reports as dropped is the list of the drops it
    issued, in the order it issued them: after the listing and the create,
    the log holds one drop call per reported name and no other call. *)
Theorem X6_dropped_reports_the_drops_issued
  {W : Type} `{Store W} (m : Model) options (st : St W) res st' :
  noIndexes m = false ->
  syncIndexes m options st = (inr res, st') ->
  log st' =
  log st
  ++ [CallListIndexes (collectionName (collection m)) options;
      CallCreateIndexes (collectionName (collection m)) (default [] (indexes m))]
  ++ map (CallDropIndex (collectionName (collection m))) (dropped res).
Proof.
  intros Hn Hrun. pose proof (syncIndexes_outcome m options st) as Hout.
  rewrite Hrun in Hout. inversion Hout; subst; [congruence|reflexivity].
Qed.

Lemma X6_dropped_reports_witness :
  log (snd (syncIndexes emailModel None (start usersWorld)))
  = [CallListIndexes "users" None;
     CallCreateIndexes "users" [asc "email"];
     CallDropIndex "users" "name_1";
     CallDropIndex "users" "age_1"].
Proof.
  apply (X6_dropped_reports_the_drops_issued emailModel None (start usersWorld)
           {| created := ["email_1"]; dropped := ["name_1"; "age_1"] |}
           (snd (syncIndexes emailModel None (start usersWorld)))).
  - reflexivity.
  - vm_compute. reflexivity.
Defined.

(** X7.  When the listing already shows every name [createIndexes] returns,
    and shows beside them at most ["_id_"], the run resolves to no creation
    and no drop, and asks the store for no drop at all. *)
Theorem X7_collection_in_sync_needs_no_drop
  {W : Type} `{Store W} (m : Model) options (st : St W) infos w1 M w2 :
  noIndexes m = false ->
  listIndexes (collectionName (collection m)) options (world st) = (inr infos, w1) ->
  createIndexes (collectionName (collection m)) (default [] (indexes m)) w1 = (inr M, w2) ->
  (forall x, x ∈ M -> x ∈ map info_name infos) ->
  (forall x, x ∈ map info_name infos -> x ∈ M \/ x = "_id_") ->
  syncIndexes m options st =
  (inr {| created := []; dropped := [] |},
   mkSt w2 (log st
            ++ [CallListIndexes (collectionName (collection m)) options;
                CallCreateIndexes (collectionName (collection m))
                  (default [] (indexes m))])).
Proof.
  intros Hn Hl Hc Hsub Hsup.
  rewrite (syncIndexes_after_create _ _ _ _ _ _ _ Hn Hl Hc).
  assert (Hnone : filter (fun x => x <> "_id_")
                    (list_difference (map info_name infos) M) = []).
  { apply elem_of_nil_inv. intros x Hx.
    apply list_elem_of_filter in Hx as [Hid Hx].
    apply list_elem_of_difference in Hx as [HxE HxM].
    destruct (Hsup x HxE); contradiction. }
  assert (Hnew : list_difference M (map info_name infos) = []).
  { apply elem_of_nil_inv. intros x Hx.
    apply list_elem_of_difference in Hx as [HxM HxE]. apply HxE, Hsub, HxM. }
  unfold await. erewrite dropLoop_all; rewrite Hnone; [|constructor].
  rewrite Hnew. unfold resolve. cbn [app map]. now rewrite app_nil_r.
Qed.

Lemma X7_collection_in_sync_witness :
  syncIndexes (newModel "users" {| opt_indexes := Some [asc "name"; asc "age"] |})
    None (start usersWorld)
  = (inr {| created := []; dropped := [] |},
     mkSt usersWorld
       [CallListIndexes "users" None;
        CallCreateIndexes "users" [asc "name"; asc "age"]]).
Proof.
  apply (X7_collection_in_sync_needs_no_drop
           (newModel "users" {| opt_indexes := Some [asc "name"; asc "age"] |})
           None (start usersWorld)
           [idIndex; info "name"; info "age"] usersWorld ["name_1"; "age_1"] usersWorld).
  - reflexivity.
  - reflexivity.
  - vm_compute. reflexivity.
  - intros x Hx. now apply list_elem_of_further.
  - intros x Hx. apply elem_of_cons in Hx as [->|Hx]; [now right|now left].
Defined.

(** ** Where a run leaves the collection, and where a rejection comes from *)

(** X8.  On a store that keeps the contract, a run that resolves leaves the
    collection with exactly the names [createIndexes] returned, and with
    ["_id_"] if the listing showed it before the run. *)
Theorem X8_resolved_run_converges
  {W : Type} `{Store W} (contract : StoreContract W)
  (m : Model) options (st : St W) infos w1 M w2 res st' :
  noIndexes m = false ->
  listIndexes (collectionName (collection m)) options (world st) = (inr infos, w1) ->
  createIndexes (collectionName (collection m)) (default [] (indexes m)) w1 = (inr M, w2) ->
  syncIndexes m options st = (inr res, st') ->
  exists E',
    listedNames (collectionName (collection m)) options (world st') = inr E' /\
    forall x, x ∈ E' <-> x ∈ M \/ (x = "_id_" /\ x ∈ map info_name infos).
Proof.
  intros Hn Hl Hc Hrun. pose proof (syncIndexes_outcome m options st) as Hout.
  rewrite Hrun in Hout.
  inversion Hout as [Hn'| | | |infos' w1' M' w2' w3 _ Hl' Hc' Hok]; subst; [congruence|].
  rewrite Hl in Hl'. injection Hl' as <- <-. rewrite Hc in Hc'. injection Hc' as <- <-.
  cbn [world].
  assert (Hw1 : w1 = world st).
  { pose proof (list_readonly (collectionName (collection m)) options (world st)) as Hro.
    now rewrite Hl in Hro. }
  subst w1.
  assert (HE : listedNames (collectionName (collection m)) options (world st)
               = inr (map info_name infos)).
  { unfold listedNames. now rewrite Hl. }
  destruct (create_reflected _ options _ _ _ _ _ Hc HE) as (E2 & HE2 & Hx2).
  destruct (listed_after_drops contract _ options _ _ _ _ Hok HE2) as (E3 & HE3 & Hx3).
  exists E3. split; [exact HE3|]. intros x.
  rewrite Hx3, Hx2, list_elem_of_filter, list_elem_of_difference.
  destruct (decide (x = "_id_")), (decide (x ∈ M)); tauto.
Qed.

Lemma X8_resolved_run_witness :
  exists E',
    listedNames "users" None
      (world (snd (syncIndexes emailModel None (start usersWorld)))) = inr E' /\
    forall x, x ∈ E' <-> x ∈ ["email_1"] \/
                         (x = "_id_" /\ x ∈ ["_id_"; "name_1"; "age_1"]).
Proof.
  apply (X8_resolved_run_converges memStore_contract emailModel None (start usersWorld)
           [idIndex; info "name"; info "age"] usersWorld ["email_1"]
           (users [idIndex; info "name"; info "age"; info "email"])
           {| created := ["email_1"]; dropped := ["name_1"; "age_1"] |}
           (snd (syncIndexes emailModel None (start usersWorld)))).
  - reflexivity.
  - reflexivity.
  - vm_compute. reflexivity.
  - vm_compute. reflexivity.
Defined.

(** X9.  A run raises no error of its own: when it is rejected with [e],
    one of its three store calls on the model's collection was rejected
    with [e], and left the world the run ends in. *)
Theorem X9_every_rejection_comes_from_the_store
  {W : Type} `{Store W} (m : Model) options (st : St W) e st' :
  syncIndexes m options st = (inl e, st') ->
  (exists w, listIndexes (collectionName (collection m)) options w = (inl e, world st')) \/
  (exists w, createIndexes (collectionName (collection m)) (default [] (indexes m)) w
             = (inl e, world st')) \/
  (exists n w, n <> "_id_" /\
               dropIndex (collectionName (collection m)) n w = (inl e, world st')).
Proof.
  intros Hrun. pose proof (syncIndexes_outcome m options st) as Hout.
  rewrite Hrun in Hout.
  inversion Hout as [|e' w Hn Hl|infos w1 e' w2 Hn Hl Hc
    |infos w1 M w2 pre n post w3 e' w4 Hn Hl Hc Hsplit Hpre He|]; subst; cbn [world].
  - left. eauto.
  - right. left. eauto.
  - right. right. exists n, w3. split; [|exact He].
    assert (Hin : n ∈ filter (fun x => x <> "_id_")
                    (list_difference (map info_name infos) M)).
    { rewrite Hsplit. apply elem_of_app. right. apply list_elem_of_here. }
    apply list_elem_of_filter in Hin. tauto.
Qed.

Lemma X9_every_rejection_witness :
  (exists w, listIndexes "users" None w
             = (inl LockedStore.unauthorized,
                LockedStore.mkWorld ["age_1"] (users [idIndex; info "age"; info "email"]))) \/
  (exists w, createIndexes "users" [asc "email"] w
             = (inl LockedStore.unauthorized,
                LockedStore.mkWorld ["age_1"] (users [idIndex; info "age"; info "email"]))) \/
  (exists n w, n <> "_id_" /\
               dropIndex "users" n w
               = (inl LockedStore.unauthorized,
                  LockedStore.mkWorld ["age_1"] (users [idIndex; info "age"; info "email"]))).
Proof.
  apply (X9_every_rejection_comes_from_the_store emailModel None
           (mkSt (LockedStore.mkWorld ["age_1"] usersWorld) [])
           LockedStore.unauthorized
           (mkSt (LockedStore.mkWorld ["age_1"] (users [idIndex; info "age"; info "email"]))
              [CallListIndexes "users" None;
               CallCreateIndexes "users" [asc "email"];
               CallDropIndex "users" "name_1";
               CallDropIndex "users" "age_1"])).
  vm_compute. reflexivity.
Defined.

(** ** The registry, one [model] call at a time *)

(** X10.  [model] returns a model on the collection of the given name with
    the given desired indexes, and leaves the registry with that model
    under that name, every other name bound as before, and one entry more
    only when the name was not registered yet. *)
Theorem X10_model_registers_what_it_returns
  (tm : IndexTs.TypedMongo) (coll : string) (options : ModelOptions) :
  let mdl := fst (IndexTs.model tm coll options) in
  let tm' := snd (IndexTs.model tm coll options) in
  collectionName (getCollection mdl) = coll /\
  indexes mdl = opt_indexes options /\
  IndexTs.mapGet coll (IndexTs.getModels tm') = Some mdl /\
  (forall other, other <> coll ->
     IndexTs.mapGet other (IndexTs.getModels tm') =
     IndexTs.mapGet other (IndexTs.getModels tm)) /\
  length (IndexTs.getModels tm') =
    if decide (coll ∈ map fst (IndexTs.getModels tm))
    then length (IndexTs.getModels tm)
    else S (length (IndexTs.getModels tm)).
Proof.
  unfold IndexTs.getModels. cbn [IndexTs.model fst snd IndexTs.models].
  split; [reflexivity|]. split; [reflexivity|]. split; [|split].
  - rewrite mapGet_mapSet. now rewrite String.eqb_refl.
  - intros other Hne. rewrite mapGet_mapSet.
    now rewrite (proj2 (String.eqb_neq coll other)) by congruence.
  - rewrite <- (length_map fst (IndexTs.mapSet _ _ _)), mapSet_keys.
    destruct (decide (coll ∈ map fst (IndexTs.models tm))).
    + apply length_map.
    + rewrite length_app, length_map. cbn. lia.
Qed.

(** ** The aggregate run *)

Section AggregateFacts.
Context {W : Type} `{Store W}.

Lemma syncLoop_skips (ms : list Model) options acc (st : St W) :
  Forall (fun m => noIndexes m = true) ms ->
  IndexTs.syncLoop ms options acc st = (inr (acc ++ map skippedEntry ms), st).
Proof.
  intros Hall. revert acc. induction Hall as [|m ms Hm Hms IH]; intros acc.
  - cbn. now rewrite app_nil_r.
  - cbn [IndexTs.syncLoop]. unfold await. rewrite (syncIndexes_early_exit _ _ _ Hm).
    rewrite IH. cbn [map]. now rewrite <- app_assoc.
Qed.

(** The calls of the loop are calls of the runs of its models. *)
Lemma syncLoop_calls (P : Model -> StoreCall -> Prop) options :
  (forall m (st : St W), exists calls,
      log (snd (syncIndexes m options st)) = log st ++ calls /\
      forall call, call ∈ calls -> P m call) ->
  forall ms acc (st : St W), exists calls,
    log (snd (IndexTs.syncLoop ms options acc st)) = log st ++ calls /\
    forall call, call ∈ calls -> exists m, m ∈ ms /\ P m call.
Proof.
  intros Hone ms. induction ms as [|m ms IH]; intros acc st.
  - exists []. cbn. rewrite app_nil_r. split; [reflexivity|].
    intros call Hin. now apply elem_of_nil in Hin.
  - cbn [IndexTs.syncLoop]. unfold await.
    destruct (Hone m st) as (calls1 & Hlog1 & HP1).
    destruct (syncIndexes m options st) as [[e|r] st1]; cbn [fst snd] in *.
    + exists calls1. split; [exact Hlog1|]. intros call Hin.
      exists m. split; [apply list_elem_of_here|now apply HP1].
    + match goal with |- context [IndexTs.syncLoop ms options ?a st1] =>
        destruct (IH a st1) as (calls2 & Hlog2 & HP2) end.
      exists (calls1 ++ calls2). split; [now rewrite Hlog2, Hlog1, app_assoc|].
      intros call Hin. apply elem_of_app in Hin as [Hin|Hin].
      * exists m. split; [apply list_elem_of_here|now apply HP1].
      * destruct (HP2 call Hin) as (m' & Hm' & HPm').
        exists m'. split; [now apply list_elem_of_further|exact HPm'].
Qed.

Lemma reconciledInOrder_keeps_id options ms (st : St W) rs st' :
  reconciledInOrder options ms st rs st' ->
  forall entry, entry ∈ rs -> "_id_" ∉ IndexTs.dropped entry.
Proof.
  induction 1 as [|m ms st r st1 rs st2 Hm Hrest IH]; intros entry Hin.
  - now apply elem_of_nil in Hin.
  - apply elem_of_cons in Hin as [->|Hin]; [|now apply IH]. cbn [IndexTs.dropped].
    destruct (syncIndexes_trace m options st) as (calls & ds & _ & _ & Hid & Hres).
    rewrite Hm in Hres. now rewrite (Hres r eq_refl).
Qed.
End AggregateFacts.

(** X11.  Models without desired indexes still count in the aggregate:
    when no registered model has any, [TypedMongo.syncIndexes] resolves to
    one entry per model, each with no creation and no drop, and the state
    is left as it was, without a single store call. *)
Theorem X11_aggregate_of_models_without_indexes
  {W : Type} `{Store W} (tm : IndexTs.TypedMongo) options (st : St W) :
  Forall (fun m => noIndexes m = true) (IndexTs.mapValues (IndexTs.models tm)) ->
  IndexTs.syncIndexes tm options st =
  (inr (map skippedEntry (IndexTs.mapValues (IndexTs.models tm))), st).
Proof.
  intros Hall. unfold IndexTs.syncIndexes. now rewrite (syncLoop_skips _ _ _ _ Hall).
Qed.

Lemma X11_aggregate_witness :
  IndexTs.syncIndexes
    (registerAll IndexTs.newTypedMongo
       [("users", {| opt_indexes := None |}); ("posts", {| opt_indexes := Some [] |})])
    None (start usersWorld)
  = (inr [ {| IndexTs.collectionName := "users";
              IndexTs.created := []; IndexTs.dropped := [] |};
           {| IndexTs.collectionName := "posts";
              IndexTs.created := []; IndexTs.dropped := [] |} ],
     start usersWorld).
Proof.
  apply (X11_aggregate_of_models_without_indexes
           (registerAll IndexTs.newTypedMongo
              [("users", {| opt_indexes := None |}); ("posts", {| opt_indexes := Some [] |})])
           None (start usersWorld)).
  repeat constructor.
Defined.

(** X12.  [TypedMongo.syncIndexes] touches the collections of the
    registered models only: every store call it makes is on the collection
    of one of them. *)
Theorem X12_aggregate_touches_registered_collections_only
  {W : Type} `{Store W} (tm : IndexTs.TypedMongo) options (st : St W) :
  exists calls,
    log (snd (IndexTs.syncIndexes tm options st)) = log st ++ calls /\
    forall call, call ∈ calls ->
      callColl call ∈ map (fun m => collectionName (collection m))
                        (IndexTs.mapValues (IndexTs.models tm)).
Proof.
  destruct (syncLoop_calls (fun m call => callColl call = collectionName (collection m))
              options (fun m st => syncIndexes_calls_own m options st)
              (IndexTs.mapValues (IndexTs.models tm)) [] st) as (calls & Hlog & Hown).
  exists calls. split; [exact Hlog|]. intros call Hin.
  destruct (Hown call Hin) as (m & Hm & ->).
  apply elem_of_map. now exists m.
Qed.

(** X13.  [TypedMongo.syncIndexes] issues no drop of ["_id_"] on any
    collection, and no entry of an aggregate lists ["_id_"] as dropped. *)
Theorem X13_aggregate_never_drops_the_id_index
  {W : Type} `{Store W} (tm : IndexTs.TypedMongo) options (st : St W) :
  exists calls,
    log (snd (IndexTs.syncIndexes tm options st)) = log st ++ calls /\
    (forall coll, CallDropIndex coll "_id_" ∉ calls) /\
    forall rs, fst (IndexTs.syncIndexes tm options st) = inr rs ->
      forall entry, entry ∈ rs -> "_id_" ∉ IndexTs.dropped entry.
Proof.
  destruct (syncLoop_calls (fun _ call => forall coll, call <> CallDropIndex coll "_id_")
              options) with (ms := IndexTs.mapValues (IndexTs.models tm))
                            (acc := @nil IndexTs.SyncIndexesEntry) (st := st)
    as (calls & Hlog & Hnone).
  { intros m st0.
    destruct (syncIndexes_trace m options st0) as (calls & ds & Hlog & Hcalls & Hid & _).
    eexists. split; [exact Hlog|]. intros call Hin coll ->.
    apply elem_of_app in Hin as [Hin|Hin]; [now apply (Hcalls coll "_id_")|].
    apply elem_of_map in Hin as (x & [= _ <-] & Hx). contradiction. }
  exists calls. split; [exact Hlog|]. split.
  - intros coll Hin. destruct (Hnone _ Hin) as (m & _ & Hne). now apply (Hne coll).
  - intros rs Hrun entry Hin. unfold IndexTs.syncIndexes in Hrun.
    destruct (IndexTs.syncLoop (IndexTs.mapValues (IndexTs.models tm)) options [] st)
      as [r st'] eqn:Hloop. cbn [fst] in Hrun. subst r.
    apply syncLoop_resolves in Hloop as (rs' & -> & Hr). cbn [app] in Hin.
    now apply (reconciledInOrder_keeps_id _ _ _ _ _ Hr).
Qed.
